(** * BoolPySearch: tokenizer, inverted index and boolean retrieval

    A shallow embedding of the search core of [BoolPySearch.py]
    ([preprocess], [load_documents_from_folder], [create_inverted_index],
    [boolean_and_search], [boolean_or_search], [boolean_not_search]), of
    the callbacks of the application that use it, and the properties of
    them that the specification states or the code shows.

    Data model.
    - A Python [str] is a Rocq [string] over an alphabet of 256
      characters, each standing for one Unicode code point: the code
      points 0..127 and 160..255, the controls U+0085 and U+0088..U+009F,
      and seven from beyond Latin-1 (U+0130, U+0307, U+0391, U+03A3,
      U+03B1, U+03C2, U+03C3), on which [str.lower] lengthens the text
      and looks at the context.
    - A Python [set] is a mutable object: the store holds the contents of
      every set object in a list indexed by reference, so two names bound
      to one object see each other's updates.
    - The inverted index is a [defaultdict(set)]: a finite map from term
      to the reference of that term's posting set, whose [__getitem__]
      creates the entry of a missing key. *)

From Stdlib Require Import Ascii String NArith Bool.
From stdpp Require Import gmap strings list fin_maps.

#[local] Set Warnings "-clear-no-such-hyp".

(** ** Characters: [\w] and [str.lower] *)

Module Chars.

(** A character is one of 256; [code] is the code point it stands for. *)
Definition slot (c : ascii) : N := N_of_ascii c.

Definition code (c : ascii) : N :=
  match slot c with
  | 128 => 304   (* U+0130 latin capital letter I with dot above *)
  | 129 => 775   (* U+0307 combining dot above *)
  | 130 => 931   (* U+03A3 greek capital letter sigma *)
  | 131 => 963   (* U+03C3 greek small letter sigma *)
  | 132 => 962   (* U+03C2 greek small letter final sigma *)
  | 134 => 913   (* U+0391 greek capital letter alpha *)
  | 135 => 945   (* U+03B1 greek small letter alpha *)
  | n => n
  end%N.

Definition capital_i_dot : ascii := ascii_of_N 128.
Definition combining_dot : ascii := ascii_of_N 129.
Definition capital_sigma : ascii := ascii_of_N 130.
Definition small_sigma : ascii := ascii_of_N 131.
Definition final_sigma : ascii := ascii_of_N 132.
Definition capital_alpha : ascii := ascii_of_N 134.
Definition small_alpha : ascii := ascii_of_N 135.

Definition between (lo hi n : N) : bool := (lo <=? n)%N && (n <=? hi)%N.

(** The characters the pattern [\w] matches in a [str] pattern:
    alphanumeric characters ([str.isalnum]) and the underscore. *)
Definition is_word (c : ascii) : bool :=
  let n := code c in
  between 48 57 n       (* 0-9 *)
  || between 65 90 n    (* A-Z *)
  || (n =? 95)%N        (* _ *)
  || between 97 122 n   (* a-z *)
  || (n =? 170)%N       (* feminine ordinal indicator *)
  || between 178 179 n  (* superscript two, three *)
  || (n =? 181)%N       (* micro sign *)
  || between 185 186 n  (* superscript one, masculine ordinal *)
  || between 188 190 n  (* vulgar fractions *)
  || between 192 214 n  (* A-grave .. O-diaeresis *)
  || between 216 246 n  (* O-stroke .. o-diaeresis *)
  || between 248 255 n  (* o-stroke .. y-diaeresis *)
  || (n =? 304)%N       (* I with dot above *)
  || (n =? 913)%N || (n =? 931)%N || (n =? 945)%N
  || between 962 963 n. (* alpha and sigma *)


(** The two properties [str.lower] looks at around a capital sigma:
    case-ignorable characters (apostrophe, full stop, colon, accents,
    soft hyphen, combining marks) and cased characters (letters that
    have a case). *)
Definition case_ignorable (c : ascii) : bool :=
  let n := code c in
  (n =? 39)%N || (n =? 46)%N || (n =? 58)%N || (n =? 94)%N || (n =? 96)%N
  || (n =? 168)%N || (n =? 173)%N || (n =? 175)%N || (n =? 180)%N
  || between 183 184 n || (n =? 775)%N.

Definition cased (c : ascii) : bool :=
  let n := code c in
  between 65 90 n || between 97 122 n || (n =? 170)%N || (n =? 181)%N
  || (n =? 186)%N || between 192 214 n || between 216 246 n
  || between 248 255 n
  || (n =? 304)%N || (n =? 913)%N || (n =? 931)%N || (n =? 945)%N
  || between 962 963 n.

(** The lower case of one character out of context: one character,
    except for I with dot above, which gives two. *)
Definition lower_char (c : ascii) : string :=
  let n := code c in
  if between 65 90 n || (between 192 222 n && negb (n =? 215)%N)
  then String (ascii_of_N (n + 32)) EmptyString
  else if (n =? 304)%N then String "i" (String combining_dot EmptyString)
  else if (n =? 913)%N then String small_alpha EmptyString
  else if (n =? 931)%N then String small_sigma EmptyString
  else String c EmptyString.

End Chars.

Import Chars.

(** Whether the text goes on with a cased character, case-ignorable
    characters passed over. *)
Fixpoint cased_ahead (s : string) : bool :=
  match s with
  | EmptyString => false
  | String c s' => if case_ignorable c then cased_ahead s' else cased c
  end.

(** [str.lower] from a position on; [before] tells whether the last
    character before it that is not case-ignorable is cased.  A capital
    sigma becomes the final sigma when it follows a cased character and
    no cased character follows it, the small sigma otherwise; every other
    character becomes its lower case. *)
Fixpoint lower_from (before : bool) (s : string) : string :=
  match s with
  | EmptyString => EmptyString
  | String c s' =>
      (if Ascii.eqb c capital_sigma then
         String (if before && negb (cased_ahead s') then final_sigma
                 else small_sigma) EmptyString
       else lower_char c)
      +:+ lower_from (if case_ignorable c then before else cased c) s'
  end.

(** [text.lower()] *)
Definition lower (s : string) : string := lower_from false s.

(** ** The regular expression [\b\w+\b] and [re.findall] *)

Module Regex.

(** Whether the character at a position is a word character; positions
    before the start and after the end of the string count as non-word. *)
Definition word_at (o : option ascii) : bool :=
  match o with
  | Some c => is_word c
  | None => false
  end.

Definition first_char (s : string) : option ascii :=
  match s with
  | EmptyString => None
  | String c _ => Some c
  end.

(** [\b]: exactly one of the characters before and after the position
    is a word character. *)
Definition word_boundary (prev next : option ascii) : bool :=
  xorb (word_at prev) (word_at next).

(** [\w+\b] anchored at the start of [s]: the text matched, if any.
    [\w+] is greedy: after one word character the matcher first tries to
    take more, and only when that fails does it stop and test [\b]. *)
Fixpoint word_plus_b (s : string) : option string :=
  match s with
  | EmptyString => None
  | String c s' =>
      if is_word c then
        match word_plus_b s' with
        | Some tok => Some (String c tok)
        | None =>
            if word_boundary (Some c) (first_char s')
            then Some (String c EmptyString)
            else None
        end
      else None
  end.

(** [\b\w+\b] anchored at a position whose preceding character is [prev]. *)
Definition match_at (prev : option ascii) (s : string) : option string :=
  if word_boundary prev (first_char s) then word_plus_b s else None.

(** The scan of [re.findall]: try a match at the current position; on
    success emit the match and resume at its end, otherwise move one
    character on.  [skip] counts the characters of the last match that
    are still to be passed over. *)
Fixpoint scan (prev : option ascii) (s : string) (skip : nat) : list string :=
  match s with
  | EmptyString => []
  | String c s' =>
      match skip with
      | S k => scan (Some c) s' k
      | O =>
          match match_at prev s with
          | Some tok => tok :: scan (Some c) s' (String.length tok - 1)
          | None => scan (Some c) s' 0
          end
      end
  end.

(** [re.findall(r'\b\w+\b', s)] *)
Definition findall (s : string) : list string := scan None s 0.

End Regex.

(** ** [stopwords] and [preprocess] *)

Definition stopwords : gset string :=
  list_to_set
    ["a"; "an"; "the"; "is"; "in"; "of"; "for"; "and"; "to"; "on"; "by";
     "that"; "it"; "from"; "this"; "with"; "as"; "at"; "are"; "was"; "were";
     "has"; "have"; "had"; "be"; "been"; "but"; "or"; "not"; "which"; "will";
     "through"].

Definition preprocess (text : string) : list string :=
  let tokens := Regex.findall (lower text) in
  filter (λ token, token ∉ stopwords) tokens.

(** ** The store: set objects and the [defaultdict] *)

(** A reference to a set object is its position in [sets]; a new object
    goes to the end, and no object is ever removed. *)
Record store : Type := Store {
  sets : list (gset string);      (* contents of every set object *)
  index : gmap string nat         (* the defaultdict: term -> reference *)
}.

(** Computations that read and update the store. *)
Definition M (A : Type) : Type := store → A * store.

#[global] Instance M_ret : MRet M := λ A (a : A) σ, (a, σ).
#[global] Instance M_bind : MBind M :=
  λ A B (f : A → M B) (m : M A) σ, let '(a, σ') := m σ in f a σ'.

(** The contents of the set object behind a reference. *)
Definition contents (σ : store) (r : nat) : gset string :=
  default ∅ (sets σ !! r).

Module Py.

(** Allocation of a set object with the given contents. *)
Definition new_set (s : gset string) : M nat :=
  λ σ, (length (sets σ), Store (sets σ ++ [s]) (index σ)).

Definition read (r : nat) : M (gset string) := λ σ, (contents σ r, σ).

(** [set()] *)
Definition set_ : M nat := new_set ∅.

(** [a.copy()] *)
Definition copy (a : nat) : M nat := x ← read a; new_set x.

(** [a.intersection(b)], [a.union(b)], [a.difference(b)]: each builds a
    new set object and leaves [a] and [b] alone. *)
Definition binop (op : gset string → gset string → gset string)
    (a b : nat) : M nat :=
  x ← read a; y ← read b; new_set (op x y).
Definition intersection : nat → nat → M nat := binop (∩).
Definition union : nat → nat → M nat := binop (∪).
Definition difference : nat → nat → M nat := binop (∖).

(** [a.add(d)]: updates the object in place. *)
Definition add (a : nat) (d : string) : M unit :=
  λ σ, (tt, Store (<[a := contents σ a ∪ {[d]}]> (sets σ)) (index σ)).

(** [inverted_index = defaultdict(set)] *)
Definition new_defaultdict : M unit := λ σ, (tt, Store (sets σ) ∅).

(** [inverted_index[term]] on a [defaultdict(set)]: a missing key is
    first bound to a new empty set, which is then returned. *)
Definition getitem (term : string) : M nat :=
  λ σ, match index σ !! term with
       | Some r => (r, σ)
       | None =>
           let r := length (sets σ) in
           (r, Store (sets σ ++ [∅]) (<[term := r]> (index σ)))
       end.

(** [for x in l: acc = body(acc, x)] *)
Fixpoint for_ {A B : Type} (l : list A) (body : B → A → M B) (acc : B) : M B :=
  match l with
  | [] => mret acc
  | x :: l' => acc' ← body acc x; for_ l' body acc'
  end.

End Py.

(** ** The three boolean searches *)

Definition boolean_and_search (query : string) : M nat :=
  let query_terms := preprocess query in
  match query_terms with
  | [] => Py.set_
  | first :: rest =>
      result ← Py.getitem first;
      Py.for_ rest
        (λ result term, p ← Py.getitem term; Py.intersection result p)
        result
  end.

Definition boolean_or_search (query : string) : M nat :=
  let query_terms := preprocess query in
  match query_terms with
  | [] => Py.set_
  | _ :: _ =>
      result ← Py.set_;
      Py.for_ query_terms
        (λ result term, p ← Py.getitem term; Py.union result p)
        result
  end.

Definition boolean_not_search (query : string) (all_docs : nat) : M nat :=
  let query_terms := preprocess query in
  match query_terms with
  | [] => Py.set_
  | _ :: _ =>
      result ← Py.copy all_docs;
      Py.for_ query_terms
        (λ result term, p ← Py.getitem term; Py.difference result p)
        result
  end.

(** ** [create_inverted_index] *)

(** [documents.items()]: the (doc_id, text) pairs of the dictionary. *)
Definition create_inverted_index (documents : gmap string string) : M unit :=
  Py.new_defaultdict;;
  Py.for_ (map_to_list documents)
    (λ _ '(doc_id, text),
       let tokens := preprocess text in
       Py.for_ tokens
         (λ _ token, p ← Py.getitem token; Py.add p doc_id)
         tt)
    tt.

(** The posting set of a term: empty when the term is not a key. *)
Definition posting (σ : store) (term : string) : gset string :=
  match index σ !! term with
  | Some r => contents σ r
  | None => ∅
  end.

(** The value a search returns, and the store it leaves. *)
Definition result_of (m : M nat) (σ : store) : gset string :=
  contents (m σ).2 (m σ).1.
Definition store_after {A} (m : M A) (σ : store) : store := (m σ).2.

(** ** [load_documents_from_folder] *)

Module Loader.

(** What a call into the operating system gives: a value, or an
    exception with its message. *)
Inductive outcome (A : Type) : Type :=
| Returns (a : A)
| Raises (e : string).
Arguments Returns {A} a.
Arguments Raises {A} e.

(** The file system the loader runs against. *)
Record filesystem : Type := {
  (* os.listdir(folder_path) *)
  listdir : string → outcome (list string);
  (* open(os.path.join(folder_path, filename), 'r', encoding='utf-8').read() *)
  read_text : string → string → outcome string
}.

(** The dialogs shown to the user. *)
Inductive dialog : Type :=
| showerror (title message : string).

(** [s.endswith(suffix)] *)
Fixpoint endswith (s suffix : string) : bool :=
  String.eqb s suffix ||
  match s with
  | EmptyString => false
  | String _ s' => endswith s' suffix
  end.

(** The body of the [for] loop, run over the names [os.listdir] gave. *)
Fixpoint read_all (fs : filesystem) (folder_path : string)
    (names : list string) (documents : gmap string string)
    : outcome (gmap string string) :=
  match names with
  | [] => Returns documents
  | filename :: names' =>
      if endswith filename ".txt" then
        match read_text fs folder_path filename with
        | Returns text =>
            read_all fs folder_path names' (<[filename := text]> documents)
        | Raises e => Raises e
        end
      else read_all fs folder_path names' documents
  end.

(** The body of the [try] block. *)
Definition try_body (fs : filesystem) (folder_path : string)
    : outcome (gmap string string) :=
  match listdir fs folder_path with
  | Returns names => read_all fs folder_path names ∅
  | Raises e => Raises e
  end.

(** The function: the dictionary returned and the dialogs shown. *)
Definition load_documents_from_folder (fs : filesystem) (folder_path : string)
    : gmap string string * list dialog :=
  match try_body fs folder_path with
  | Returns documents => (documents, [])
  | Raises e => (∅, [showerror "Error" ("Error reading documents: " +:+ e)])
  end.

End Loader.

(** ** Specification-side definitions *)

(** The tokenizer as the specification words it: the maximal runs of word
    characters of the text, in order, each lowercased, stopwords dropped. *)

(** The longest prefix of word characters, and what follows it. *)
Fixpoint word_prefix (s : string) : string :=
  match s with
  | EmptyString => EmptyString
  | String c s' => if is_word c then String c (word_prefix s') else EmptyString
  end.

Fixpoint after_word (s : string) : string :=
  match s with
  | EmptyString => EmptyString
  | String c s' => if is_word c then after_word s' else s
  end.

(** The run read so far, closed by a separator or the end of the text. *)
Definition flush (cur : string) : list string :=
  match cur with
  | EmptyString => []
  | String _ _ => [cur]
  end.

(** The maximal runs of word characters of [s]; [cur] is the run being read. *)
Fixpoint word_runs (cur : string) (s : string) : list string :=
  match s with
  | EmptyString => flush cur
  | String c s' =>
      if is_word c then word_runs (cur +:+ String c EmptyString) s'
      else flush cur ++ word_runs EmptyString s'
  end.

Definition tokenize_spec (text : string) : list string :=
  filter (λ token, token ∉ stopwords) (lower <$> word_runs EmptyString text).

(** Every character is a word character / a whitespace character. *)
Fixpoint all_chars (p : ascii → bool) (s : string) : bool :=
  match s with
  | EmptyString => true
  | String c s' => p c && all_chars p s'
  end.

(** ** Invariants and abbreviations used by the proofs *)

(** Every reference the index holds is to an object of the store. *)
Definition index_wf (σ : store) : Prop :=
  ∀ term r, index σ !! term = Some r → r < length (sets σ).

(** [σ'] comes from [σ] by allocating objects and adding keys bound to
    empty sets: old objects and old keys are as they were. *)
Record grows (σ σ' : store) : Prop := Grows {
  grows_sets : ∃ new, sets σ' = sets σ ++ new;
  grows_index : ∀ term r, index σ !! term = Some r → index σ' !! term = Some r;
  grows_posting : ∀ term, posting σ' term = posting σ term;
  grows_wf : index_wf σ';
  grows_fresh : ∀ term r,
    index σ !! term = None → index σ' !! term = Some r → length (sets σ) ≤ r
}.

(** One round of a search loop: [result = result.op(inverted_index[term])]. *)
Definition round (op : gset string → gset string → gset string)
    (result : nat) (term : string) : M nat :=
  p ← Py.getitem term; Py.binop op result p.

Definition and_value (σ : store) (terms : list string) : gset string :=
  match terms with
  | [] => ∅
  | first :: rest => foldl (λ s term, s ∩ posting σ term) (posting σ first) rest
  end.

Definition or_value (σ : store) (terms : list string) : gset string :=
  foldl (λ s term, s ∪ posting σ term) ∅ terms.

Definition not_value (σ : store) (universe : gset string) (terms : list string)
    : gset string :=
  match terms with
  | [] => ∅
  | _ :: _ => foldl (λ s term, s ∖ posting σ term) universe terms
  end.

(** What a search leaves behind: the store has grown, and the keys of the
    index are the old ones and the terms of the query. *)
Definition search_post (query : string) (σ σ' : store) (r : nat) : Prop :=
  grows σ σ' ∧ r < length (sets σ')
  ∧ dom (index σ') = dom (index σ) ∪ list_to_set (preprocess query).

(** What a search does and does not change. *)
Definition frame (query : string) (σ σ' : store) : Prop :=
  (* the posting set of every term, looked up with the empty default *)
  (∀ term, posting σ' term = posting σ term)
  (* the keys there were, and the objects they are bound to *)
  ∧ (∀ term r, index σ !! term = Some r → index σ' !! term = Some r)
  (* the set objects there were *)
  ∧ (∀ r, r < length (sets σ) → sets σ' !! r = sets σ !! r)
  (* the keys: every term of the query is now one *)
  ∧ dom (index σ') = dom (index σ) ∪ list_to_set (preprocess query)
  (* a key that was missing is bound to a set object made for it, empty *)
  ∧ (∀ term r, index σ !! term = None → index σ' !! term = Some r →
       length (sets σ) ≤ r ∧ contents σ' r = ∅)
  (* nothing at all, when every term of the query was a key *)
  ∧ ((∀ term, term ∈ preprocess query → is_Some (index σ !! term)) →
     index σ' = index σ).

(** A character that [str.lower] leaves as it is, wherever it stands. *)
Definition stable (c : ascii) : bool :=
  String.eqb (lower_char c) (String c EmptyString)
  && negb (Ascii.eqb c capital_sigma).





(** No set object is the posting set of two terms. *)
Definition index_inj (σ : store) : Prop :=
  ∀ t1 t2 r, index σ !! t1 = Some r → index σ !! t2 = Some r → t1 = t2.

Definition build_inv (σ : store) : Prop := index_wf σ ∧ index_inj σ.

(** The body of the inner loop of [create_inverted_index]:
    [inverted_index[token].add(doc_id)]. *)
Definition add_posting (doc_id : string) (_ : unit) (token : string) : M unit :=
  p ← Py.getitem token; Py.add p doc_id.

(** The body of its outer loop. *)
Definition add_document (_ : unit) (item : string * string) : M unit :=
  let '(doc_id, text) := item in
  let tokens := preprocess text in
  Py.for_ tokens (add_posting doc_id) tt.

(** ** The scenario of the specification *)

Definition scenario_docs : gmap string string :=
  <["d1" := "the cat sat"]> (<["d2" := "the dog sat"]> (<["d3" := "cat and dog"]> ∅)).

(** A store with one set object, the universe, and no index yet. *)
Definition scenario_start : store := Store [ {["d1"; "d2"; "d3"]} ] ∅.

(** The store once the index is built. *)
Definition scenario : store :=
  store_after (create_inverted_index scenario_docs) scenario_start.

(** A folder that does not exist, and one that holds no file. *)
Definition fs_missing : Loader.filesystem :=
  {| Loader.listdir := λ _, Loader.Raises "No such file or directory";
     Loader.read_text := λ _ _, Loader.Raises "No such file or directory" |}.

Definition fs_empty : Loader.filesystem :=
  {| Loader.listdir := λ _, Loader.Returns [];
     Loader.read_text := λ _ _, Loader.Raises "No such file or directory" |}.

(** ** The three searches under one name *)

(** The operator of a search, as [perform_search] tells them apart. *)
Inductive operator : Type := AND | OR | NOT.

Definition search (op : operator) (query : string) (all_docs : nat) : M nat :=
  match op with
  | AND => boolean_and_search query
  | OR => boolean_or_search query
  | NOT => boolean_not_search query all_docs
  end.

(** What the search computes from the posting sets and the universe. *)
Definition value (op : operator) (σ : store) (universe : gset string)
    (terms : list string) : gset string :=
  match op with
  | AND => and_value σ terms
  | OR => or_value σ terms
  | NOT => not_value σ universe terms
  end.

(** Every reference the index holds is to an object made after the
    first [n] of the store. *)
Definition index_above (n : nat) (σ : store) : Prop :=
  ∀ term r, index σ !! term = Some r → n ≤ r.

(** A folder with two text documents and a file of another kind. *)
Definition fs_notes : Loader.filesystem :=
  {| Loader.listdir := λ _, Loader.Returns ["d1.txt"; "notes.md"; "d2.txt"];
     Loader.read_text := λ _ filename,
       if String.eqb filename "d1.txt" then Loader.Returns "the cat sat"
       else if String.eqb filename "d2.txt" then Loader.Returns "the dog sat"
       else Loader.Raises "Permission denied" |}.

(** ** The application: [BoolPySearch.load_documents], [perform_search],
    [display_search_results], [clear_all] *)

Module Gui.

(** The dialogs of [messagebox]. *)
Inductive dialog : Type :=
| showinfo (title message : string)
| showerror (title message : string).

Definition of_loader (d : Loader.dialog) : dialog :=
  match d with
  | Loader.showerror title message => showerror title message
  end.

(** The attributes of the application object and the contents of its
    widgets.  [heap] holds the set objects and, as its index, the
    dictionary [self.inverted_index].  The number in the label
    "Total Documents Loaded: N" stands for its text; the index pane is
    kept as the finite map from each term shown to the set shown with it,
    the results pane as the strings inserted into it, in order. *)
Record app : Type := App {
  documents : gmap string string;           (* self.documents *)
  heap : store;                             (* self.inverted_index, and the sets *)
  folder_path : string;                     (* self.folder_path *)
  query_entry : string;                     (* self.query_entry *)
  search_type : string;                     (* self.search_type *)
  doc_count_label : nat;                    (* self.doc_count_label *)
  index_text : gmap string (gset string);   (* self.index_text *)
  results_text : list string;               (* self.results_text *)
  dialogs : list dialog                     (* the dialogs shown so far *)
}.

(** The state [__init__] leaves. *)
Definition init : app :=
  App ∅ (Store [] ∅) EmptyString EmptyString "AND" 0 ∅ [] [].

(** A dialog is shown. *)
Definition say (d : dialog) (a : app) : app :=
  App (documents a) (heap a) (folder_path a) (query_entry a) (search_type a)
      (doc_count_label a) (index_text a) (results_text a) (dialogs a ++ [d]).

Definition with_heap (σ : store) (a : app) : app :=
  App (documents a) σ (folder_path a) (query_entry a) (search_type a)
      (doc_count_label a) (index_text a) (results_text a) (dialogs a).

Definition with_results (panel : list string) (a : app) : app :=
  App (documents a) (heap a) (folder_path a) (query_entry a) (search_type a)
      (doc_count_label a) (index_text a) panel (dialogs a).

(** The user types a query, and picks a search type in the combobox. *)
Definition type_query (query : string) (a : app) : app :=
  App (documents a) (heap a) (folder_path a) query (search_type a)
      (doc_count_label a) (index_text a) (results_text a) (dialogs a).

Definition select_type (search_type : string) (a : app) : app :=
  App (documents a) (heap a) (folder_path a) (query_entry a) search_type
      (doc_count_label a) (index_text a) (results_text a) (dialogs a).

(** What [display_inverted_index] writes: a line per key, with its set. *)
Definition display_inverted_index (σ : store) : gmap string (gset string) :=
  contents σ <$> index σ.

(** [load_documents]; [chosen] is what [filedialog.askdirectory()] returns,
    the empty string when the user cancels. *)
Definition load_documents (fs : Loader.filesystem) (chosen : string) (a : app)
    : app :=
  if String.eqb chosen EmptyString then
    App (documents a) (heap a) chosen (query_entry a) (search_type a)
        (doc_count_label a) (index_text a) (results_text a) (dialogs a)
  else
    let loaded := Loader.load_documents_from_folder fs chosen in
    let shown := dialogs a ++ (of_loader <$> loaded.2) in
    if bool_decide (loaded.1 ≠ ∅) then
      let σ := store_after (create_inverted_index loaded.1) (heap a) in
      App loaded.1 σ chosen (query_entry a) (search_type a)
          (size loaded.1) (display_inverted_index σ) (results_text a)
          (shown ++ [showinfo "Success" "Documents loaded successfully!"])
    else
      App loaded.1 (heap a) chosen (query_entry a) (search_type a)
          (doc_count_label a) (index_text a) (results_text a)
          (shown ++ [showinfo "Info" "No documents found in the selected folder."]).

(** How a callback ends: normally, or with a [KeyError] on a key. *)
Inductive outcome : Type :=
| Done (a : app)
| KeyError (key : string) (a : app).

Definition nl : string := String (ascii_of_N 10) EmptyString.

(** The loop of [display_search_results]: for each document of the
    result, its heading and then its content, looked up in
    [self.documents].  It stops at a document that is not there, the
    heading already written. *)
Fixpoint show_documents (documents : gmap string string) (ids : list string)
    (panel : list string) : list string + string * list string :=
  match ids with
  | [] => inl panel
  | doc_id :: ids' =>
      let panel := panel ++ ["Document: " +:+ doc_id +:+ nl] in
      match documents !! doc_id with
      | Some text => show_documents documents ids' (panel ++ [text +:+ nl +:+ nl])
      | None => inr (doc_id, panel)
      end
  end.

(** [display_search_results]; the documents of a set are gone through in
    the order [elements] lists them. *)
Definition display_search_results (result : nat) (a : app) : outcome :=
  if bool_decide (contents (heap a) result = ∅) then
    Done (with_results ["No documents found matching the query."] a)
  else
    match show_documents (documents a) (elements (contents (heap a) result)) [] with
    | inl panel => Done (with_results panel a)
    | inr (doc_id, panel) => KeyError doc_id (with_results panel a)
    end.

(** [perform_search] *)
Definition perform_search (a : app) : outcome :=
  let query := query_entry a in
  let search_type := search_type a in
  let made := Py.new_set (dom (documents a)) (heap a) in
  let all_docs := made.1 in
  let a := with_heap made.2 a in
  if bool_decide (index (heap a) = ∅) then
    Done (say (showinfo "Info" "Please load documents first.") a)
  else if String.eqb query EmptyString then
    Done (say (showinfo "Info" "Please enter a query.") a)
  else if String.eqb search_type "AND" then
    let found := boolean_and_search query (heap a) in
    display_search_results found.1 (with_heap found.2 a)
  else if String.eqb search_type "OR" then
    let found := boolean_or_search query (heap a) in
    display_search_results found.1 (with_heap found.2 a)
  else if String.eqb search_type "NOT" then
    let found := boolean_not_search query all_docs (heap a) in
    display_search_results found.1 (with_heap found.2 a)
  else
    Done (say (showerror "Error" "Invalid search type.") a).

(** [clear_all] *)
Definition clear_all (a : app) : app :=
  App ∅ (Store (sets (heap a)) ∅) EmptyString EmptyString (search_type a)
      0 ∅ [] (dialogs a).

(** The documents and the index belong together: every reference of the
    index is to a set object, and every document of a posting set is a
    loaded document. *)
Definition consistent (a : app) : Prop :=
  index_wf (heap a)
  ∧ ∀ term d, d ∈ posting (heap a) term → is_Some (documents a !! d).

(** What the results pane holds for a set of documents that are all
    loaded. *)
Definition rendering (documents : gmap string string) (result : gset string)
    : list string :=
  if bool_decide (result = ∅) then ["No documents found matching the query."]
  else flat_map (λ doc_id, ["Document: " +:+ doc_id +:+ nl;
                            default EmptyString (documents !! doc_id) +:+ nl +:+ nl])
                (elements result).

(** The operator a search type names. *)
Definition operator_of (search_type : string) : option operator :=
  if String.eqb search_type "AND" then Some AND
  else if String.eqb search_type "OR" then Some OR
  else if String.eqb search_type "NOT" then Some NOT
  else None.

End Gui.

(** A folder whose one document holds stopwords only. *)
Definition fs_stopwords : Loader.filesystem :=
  {| Loader.listdir := λ _, Loader.Returns ["a.txt"];
     Loader.read_text := λ _ _, Loader.Returns "The and of." |}.

(** The application once the folder of [fs_notes] is loaded; with a query
    typed; and after a further load, of the empty folder. *)
Definition app_loaded : Gui.app := Gui.load_documents fs_notes "docs" Gui.init.

Definition app_ready : Gui.app :=
  Gui.select_type "AND" (Gui.type_query "sat" app_loaded).

Definition app_stale : Gui.app := Gui.load_documents fs_empty "empty" app_loaded.

(** [center_window]: where the window of 870 by 755 is put on a screen
    of the given size, as the two offsets of the geometry string; [//] is
    the division that rounds down. *)
Definition center_window (screen_width screen_height : Z) : Z * Z :=
  let window_width := 870%Z in
  let window_height := 755%Z in
  let x_position := ((screen_width - window_width) `div` 2)%Z in
  let y_position := ((screen_height - window_height) `div` 2)%Z in
  (x_position, y_position).

(** * Properties *)

(** ** The tokenizer *)


Lemma string_app_cons c (a b : string) : String c a +:+ b = String c (a +:+ b).
Proof. reflexivity. Qed.

Lemma string_app_empty_r (s : string) : s +:+ EmptyString = s.
Proof. induction s as [|c s IH]; [done | by rewrite string_app_cons, IH]. Qed.

Lemma string_app_assoc (a b c : string) : (a +:+ b) +:+ c = a +:+ (b +:+ c).
Proof. induction a as [|x a IH]; [done | by rewrite !string_app_cons, IH]. Qed.

Lemma word_prefix_empty_first s :
  word_prefix s = EmptyString → Regex.word_at (Regex.first_char s) = false.
Proof. destruct s as [|c s]; simpl; [done|]. by destruct (is_word c). Qed.

(** [\w+\b] takes the whole run of word characters it starts in. *)
Lemma word_plus_b_prefix s :
  Regex.word_plus_b s =
  match word_prefix s with
  | EmptyString => None
  | String _ _ => Some (word_prefix s)
  end.
Proof.
  induction s as [|c s IH]; simpl; [done|].
  destruct (is_word c) eqn:Hc; [|done].
  rewrite IH. destruct (word_prefix s) eqn:Hp; [|done].
  unfold Regex.word_boundary. simpl. rewrite Hc.
  by rewrite (word_prefix_empty_first s Hp).
Qed.

(** A run in progress ends where the word characters end. *)
Lemma word_runs_cur s : ∀ cur,
  cur ≠ EmptyString →
  word_runs cur s = (cur +:+ word_prefix s) :: word_runs EmptyString (after_word s).
Proof.
  induction s as [|c s IH]; intros cur Hcur; simpl.
  - rewrite string_app_empty_r. by destruct cur.
  - destruct (is_word c) eqn:Hc.
    + rewrite IH; [|by destruct cur].
      by rewrite string_app_assoc.
    + simpl. rewrite Hc, string_app_empty_r. by destruct cur.
Qed.

(** The scan and the runs agree, at a position that does not follow a
    word character and at the end of a match. *)
Lemma scan_runs s :
  (∀ prev, Regex.word_at prev = false →
     Regex.scan prev s 0 = word_runs EmptyString s)
  ∧ (∀ c, is_word c = true →
     Regex.scan (Some c) s (String.length (word_prefix s))
     = word_runs EmptyString (after_word s)).
Proof.
  induction s as [|d s [IH1 IH2]]; [done|]. split.
  - intros prev Hprev. simpl.
    unfold Regex.match_at, Regex.word_boundary. simpl Regex.first_char.
    rewrite Hprev. simpl Regex.word_at.
    destruct (is_word d) eqn:Hd; simpl xorb; cbv iota.
    + rewrite word_plus_b_prefix. simpl word_prefix. rewrite Hd.
      simpl String.length.
      replace (S (String.length (word_prefix s)) - 1)
        with (String.length (word_prefix s)) by lia.
      rewrite (IH2 d Hd).
      change (EmptyString +:+ String d EmptyString) with (String d EmptyString).
      by rewrite (word_runs_cur s (String d EmptyString)).
    + by rewrite (IH1 (Some d)).
  - intros c Hc. simpl. destruct (is_word d) eqn:Hd; simpl.
    + by apply IH2.
    + unfold Regex.match_at, Regex.word_boundary. simpl. rewrite Hc, Hd. simpl.
      by rewrite (IH1 (Some d)).
Qed.

Lemma findall_runs s : Regex.findall s = word_runs EmptyString s.
Proof. by apply scan_runs. Qed.




(** The runs are runs: not empty, and of word characters only. *)
Lemma word_runs_tokens s : ∀ cur tok,
  all_chars is_word cur = true →
  tok ∈ word_runs cur s → tok ≠ EmptyString ∧ all_chars is_word tok = true.
Proof.
  assert (Hflush : ∀ cur tok, all_chars is_word cur = true →
            tok ∈ flush cur → tok ≠ EmptyString ∧ all_chars is_word tok = true).
  { intros [|c cur] tok Hcur; simpl; [by intros ?%elem_of_nil|].
    by intros ->%list_elem_of_singleton. }
  assert (Happ : ∀ cur c, all_chars is_word cur = true → is_word c = true →
            all_chars is_word (cur +:+ String c EmptyString) = true).
  { induction cur as [|x cur IH]; intros c; simpl.
    - by intros _ ->.
    - intros [-> Hcur]%andb_true_iff Hc. by apply IH. }
  induction s as [|c s IH]; intros cur tok Hcur; simpl.
  - by apply Hflush.
  - destruct (is_word c) eqn:Hc.
    + apply IH. by apply Happ.
    + rewrite elem_of_app. intros [H|H]; [by apply (Hflush cur)|].
      by apply (IH EmptyString).
Qed.

(** ** Lowercasing *)

Lemma preprocess_runs text :
  preprocess text
  = filter (λ token, token ∉ stopwords) (word_runs EmptyString (lower text)).
Proof. unfold preprocess. by rewrite findall_runs. Qed.

Lemma lower_from_cons before c s :
  lower_from before (String c s)
  = (if Ascii.eqb c capital_sigma then
       String (if before && negb (cased_ahead s) then final_sigma
               else small_sigma) EmptyString
     else lower_char c)
    +:+ lower_from (if case_ignorable c then before else cased c) s.
Proof. reflexivity. Qed.

Lemma all_chars_app p a b :
  all_chars p (a +:+ b) = all_chars p a && all_chars p b.
Proof.
  induction a as [|c a IH]; [done|].
  rewrite string_app_cons. simpl. by rewrite IH, andb_assoc.
Qed.


Lemma stable_lower_char c :
  stable c = true →
  lower_char c = String c EmptyString ∧ Ascii.eqb c capital_sigma = false.
Proof.
  unfold stable. intros [H1 H2]%andb_true_iff.
  apply String.eqb_eq in H1. by apply negb_true_iff in H2.
Qed.

Lemma lower_char_stable c : all_chars stable (lower_char c) = true.
Proof. by destruct c as [[] [] [] [] [] [] [] []]. Qed.





(** A text of stable characters is its own lower case. *)
Lemma lower_from_stable s : ∀ before,
  all_chars stable s = true → lower_from before s = s.
Proof.
  induction s as [|c s IH]; intros before; [done|]. simpl all_chars.
  intros [Hc Hs]%andb_true_iff. rewrite lower_from_cons.
  destruct (stable_lower_char c Hc) as [-> ->].
  rewrite string_app_cons. by rewrite IH.
Qed.

(** A lowered text holds stable characters only. *)
Lemma lower_from_is_stable s : ∀ before,
  all_chars stable (lower_from before s) = true.
Proof.
  induction s as [|c s IH]; intros before; [done|].
  rewrite lower_from_cons, all_chars_app, IH, andb_true_r.
  destruct (Ascii.eqb c capital_sigma); [|apply lower_char_stable].
  by destruct (before && negb (cased_ahead s)).
Qed.

Lemma lower_idemp s : lower (lower s) = lower s.
Proof. apply lower_from_stable, lower_from_is_stable. Qed.

(** A property of the characters of a text is one of the characters of
    its runs. *)
Lemma word_runs_all p s : ∀ cur tok,
  all_chars p cur = true → all_chars p s = true →
  tok ∈ word_runs cur s → all_chars p tok = true.
Proof.
  assert (Hflush : ∀ cur tok, all_chars p cur = true →
            tok ∈ flush cur → all_chars p tok = true).
  { intros [|c cur] tok Hcur; simpl; [by intros ?%elem_of_nil|].
    by intros ->%list_elem_of_singleton. }
  induction s as [|c s IH]; intros cur tok Hcur; simpl.
  - intros _. by apply Hflush.
  - intros [Hc Hs]%andb_true_iff. destruct (is_word c).
    + apply IH; [|done]. rewrite all_chars_app, Hcur. simpl. by rewrite Hc.
    + rewrite elem_of_app. intros [H|H]; [by apply (Hflush cur)|].
      by apply (IH EmptyString).
Qed.










(** From here on the tokenizer is used through its lemmas only. *)
#[local] Opaque preprocess.

(** ** The store *)

Lemma grows_contents σ σ' r :
  grows σ σ' → r < length (sets σ) → contents σ' r = contents σ r.
Proof.
  intros [[new Hnew] _ _ _ _] Hr. unfold contents.
  by rewrite Hnew, lookup_app_l.
Qed.

Lemma grows_lookup σ σ' r :
  grows σ σ' → r < length (sets σ) → sets σ' !! r = sets σ !! r.
Proof. intros [[new Hnew] _ _ _ _] Hr. by rewrite Hnew, lookup_app_l. Qed.

Lemma grows_length σ σ' : grows σ σ' → length (sets σ) ≤ length (sets σ').
Proof. intros [[new Hnew] _ _ _ _]. rewrite Hnew, length_app. lia. Qed.

Lemma grows_refl σ : index_wf σ → grows σ σ.
Proof.
  intros Hwf. split; [exists []; by rewrite app_nil_r | done | done | done |].
  intros term r E1 E2. congruence.
Qed.

Lemma grows_trans σ1 σ2 σ3 : grows σ1 σ2 → grows σ2 σ3 → grows σ1 σ3.
Proof.
  intros [[n1 H1] Hi1 Hp1 Hw1 Hf1] [[n2 H2] Hi2 Hp2 Hw2 Hf2]. split.
  - exists (n1 ++ n2). by rewrite H2, H1, app_assoc.
  - eauto.
  - intros t. by rewrite Hp2, Hp1.
  - done.
  - intros term r E1 E3. destruct (index σ2 !! term) as [r2|] eqn:E2.
    + rewrite (Hi2 term r2 E2) in E3. injection E3 as <-. by eapply Hf1.
    + pose proof (Hf2 term r E2 E3) as Hr. rewrite H1, length_app in Hr. lia.
Qed.

Lemma posting_new_set σ s term :
  index_wf σ → posting (Store (sets σ ++ [s]) (index σ)) term = posting σ term.
Proof.
  intros Hwf. unfold posting, contents; simpl.
  destruct (index σ !! term) as [r|] eqn:E; [|done].
  by rewrite lookup_app_l by eauto.
Qed.

Lemma new_set_grows σ s : index_wf σ → grows σ (Py.new_set s σ).2.
Proof.
  intros Hwf. split; simpl.
  - by exists [s].
  - done.
  - intros t. by apply posting_new_set.
  - intros t r Hr; simpl in *. rewrite length_app. apply Hwf in Hr. simpl. lia.
  - intros term r E1 E2. congruence.
Qed.

Lemma new_set_contents σ s : contents (Py.new_set s σ).2 (Py.new_set s σ).1 = s.
Proof.
  unfold contents; simpl.
  by rewrite lookup_app_r, Nat.sub_diag by lia.
Qed.

(** [inverted_index[term]]: the object returned holds the posting set of
    the term, and the only change is the key [term] when it was missing. *)
Lemma getitem_spec σ term :
  index_wf σ →
  let r := (Py.getitem term σ).1 in
  let σ' := (Py.getitem term σ).2 in
  grows σ σ' ∧ r < length (sets σ') ∧ contents σ' r = posting σ term
  ∧ dom (index σ') = dom (index σ) ∪ {[term]}.
Proof.
  intros Hwf. unfold Py.getitem, posting.
  destruct (index σ !! term) as [r|] eqn:E; simpl.
  - split_and!; [by apply grows_refl | eauto | done |].
    apply elem_of_dom_2 in E. set_solver.
  - split_and!.
    + split; simpl.
      * by exists [∅].
      * intros t r Hr. rewrite lookup_insert_ne; [done|congruence].
      * intros t. unfold posting, contents; simpl.
        destruct (decide (term = t)) as [->|Hne].
        -- rewrite lookup_insert_eq, E.
           by rewrite lookup_app_r, Nat.sub_diag by lia.
        -- rewrite lookup_insert_ne by done.
           destruct (index σ !! t) as [r|] eqn:Et; [|done].
           by rewrite lookup_app_l by eauto.
      * intros t r; simpl. rewrite length_app; simpl.
        destruct (decide (term = t)) as [->|Hne].
        -- rewrite lookup_insert_eq. intros [= <-]. lia.
        -- rewrite lookup_insert_ne by done. intros Hr%Hwf. lia.
      * intros t r E1. destruct (decide (term = t)) as [->|Hne].
        -- rewrite lookup_insert_eq. by intros [= <-].
        -- rewrite lookup_insert_ne by done. congruence.
    + rewrite length_app; simpl; lia.
    + unfold contents; simpl. by rewrite lookup_app_r, Nat.sub_diag by lia.
    + rewrite dom_insert_L. set_solver.
Qed.

Lemma bind_run {A B} (m : M A) (f : A → M B) σ :
  (m ≫= f) σ = f (m σ).1 (m σ).2.
Proof. unfold mbind, M_bind. by destruct (m σ). Qed.

(** ** The loops of the three searches *)

Lemma round_spec op σ acc term :
  index_wf σ → acc < length (sets σ) →
  let r := (round op acc term σ).1 in
  let σ' := (round op acc term σ).2 in
  grows σ σ' ∧ r < length (sets σ') ∧ length (sets σ) ≤ r
  ∧ contents σ' r = op (contents σ acc) (posting σ term)
  ∧ dom (index σ') = dom (index σ) ∪ {[term]}.
Proof.
  intros Hwf Hacc. unfold round. rewrite bind_run.
  destruct (getitem_spec σ term Hwf) as (Hg & Hp & Hc & Hd).
  set (p := (Py.getitem term σ).1) in *.
  set (σ1 := (Py.getitem term σ).2) in *.
  unfold Py.binop. rewrite !bind_run. simpl.
  pose proof (grows_length _ _ Hg) as Hlen.
  split_and!.
  - eapply grows_trans; [exact Hg|].
    apply (new_set_grows σ1). apply Hg.
  - rewrite length_app; simpl; lia.
  - lia.
  - unfold contents at 1; simpl.
    rewrite lookup_app_r, Nat.sub_diag by lia. simpl.
    by rewrite Hc, (grows_contents σ σ1) by done.
  - done.
Qed.

Lemma foldl_ext_posting (op : gset string → gset string → gset string)
    (f g : string → gset string) (terms : list string) (s : gset string) :
  (∀ term, f term = g term) →
  foldl (λ s term, op s (f term)) s terms = foldl (λ s term, op s (g term)) s terms.
Proof.
  intros Hfg. revert s. induction terms as [|t terms IH]; intros s; simpl; [done|].
  by rewrite Hfg, IH.
Qed.

Lemma loop_spec op terms : ∀ σ acc,
  index_wf σ → acc < length (sets σ) →
  let r := (Py.for_ terms (round op) acc σ).1 in
  let σ' := (Py.for_ terms (round op) acc σ).2 in
  grows σ σ' ∧ r < length (sets σ') ∧ acc ≤ r
  ∧ contents σ' r = foldl (λ s term, op s (posting σ term)) (contents σ acc) terms
  ∧ dom (index σ') = dom (index σ) ∪ list_to_set terms.
Proof.
  induction terms as [|term terms IH]; intros σ acc Hwf Hacc; simpl.
  - split_and!; [by apply grows_refl | done | done | done | set_solver].
  - rewrite bind_run.
    destruct (round_spec op σ acc term Hwf Hacc) as (Hg & Hr & Hge & Hc & Hd).
    set (r1 := (round op acc term σ).1) in *.
    set (σ1 := (round op acc term σ).2) in *.
    destruct (IH σ1 r1 (grows_wf _ _ Hg) Hr) as (Hg' & Hr' & Hge' & Hc' & Hd').
    split_and!.
    + by eapply grows_trans.
    + done.
    + lia.
    + rewrite Hc', Hc. apply foldl_ext_posting. intros t. apply Hg.
    + rewrite Hd', Hd. set_solver.
Qed.

(** ** What each search computes, in terms of posting sets *)

Lemma elem_of_foldl_intersection (f : string → gset string) terms : ∀ s d,
  d ∈ foldl (λ s term, s ∩ f term) s terms ↔ d ∈ s ∧ ∀ term, term ∈ terms → d ∈ f term.
Proof.
  induction terms as [|t terms IH]; intros s d; simpl.
  - set_solver.
  - rewrite IH. setoid_rewrite elem_of_cons. set_solver.
Qed.

Lemma elem_of_foldl_union (f : string → gset string) terms : ∀ s d,
  d ∈ foldl (λ s term, s ∪ f term) s terms ↔ d ∈ s ∨ ∃ term, term ∈ terms ∧ d ∈ f term.
Proof.
  induction terms as [|t terms IH]; intros s d; simpl.
  - set_solver.
  - rewrite IH. setoid_rewrite elem_of_cons. set_solver.
Qed.

Lemma elem_of_foldl_difference (f : string → gset string) terms : ∀ s d,
  d ∈ foldl (λ s term, s ∖ f term) s terms ↔ d ∈ s ∧ ∀ term, term ∈ terms → d ∉ f term.
Proof.
  induction terms as [|t terms IH]; intros s d; simpl.
  - set_solver.
  - rewrite IH. setoid_rewrite elem_of_cons. set_solver.
Qed.

Lemma empty_query_post query σ :
  index_wf σ → preprocess query = [] →
  search_post query σ (Py.set_ σ).2 (Py.set_ σ).1
  ∧ contents (Py.set_ σ).2 (Py.set_ σ).1 = ∅
  ∧ length (sets σ) ≤ (Py.set_ σ).1.
Proof.
  intros Hwf Hq. unfold search_post. rewrite Hq. split_and!.
  - by apply new_set_grows.
  - simpl. rewrite length_app; simpl; lia.
  - simpl. set_solver +.
  - apply new_set_contents.
  - done.
Qed.

Lemma and_search_spec query σ :
  index_wf σ →
  search_post query σ (boolean_and_search query σ).2 (boolean_and_search query σ).1
  ∧ result_of (boolean_and_search query) σ = and_value σ (preprocess query).
Proof.
  intros Hwf. unfold result_of, boolean_and_search.
  destruct (preprocess query) as [|first rest] eqn:Hq.
  - destruct (empty_query_post query σ Hwf Hq) as (Hp & Hc & _).
    split; [exact Hp | exact Hc].
  - rewrite bind_run.
    destruct (getitem_spec σ first Hwf) as (Hg & Hr & Hc & Hd).
    set (r1 := (Py.getitem first σ).1) in *.
    set (σ1 := (Py.getitem first σ).2) in *.
    destruct (loop_spec (∩) rest σ1 r1 (grows_wf _ _ Hg) Hr)
      as (Hg' & Hr' & _ & Hc' & Hd').
    change (λ result term, Py.getitem term ≫= λ p, Py.intersection result p)
      with (round (∩)).
    unfold search_post. split_and!.
    + by eapply grows_trans.
    + done.
    + rewrite Hq, Hd', Hd. set_solver +.
    + simpl. rewrite Hc', Hc. apply foldl_ext_posting. intros t. apply Hg.
Qed.

Lemma or_search_spec query σ :
  index_wf σ →
  search_post query σ (boolean_or_search query σ).2 (boolean_or_search query σ).1
  ∧ result_of (boolean_or_search query) σ = or_value σ (preprocess query)
  ∧ length (sets σ) ≤ (boolean_or_search query σ).1.
Proof.
  intros Hwf. unfold result_of, boolean_or_search.
  destruct (preprocess query) as [|first rest] eqn:Hq.
  - destruct (empty_query_post query σ Hwf Hq) as (Hp & Hc & Hl).
    split_and!; [exact Hp | exact Hc | exact Hl].
  - rewrite bind_run.
    pose proof (new_set_grows σ ∅ Hwf) as Hg.
    pose proof (new_set_contents σ ∅) as Hc.
    fold Py.set_ in Hg, Hc.
    set (r1 := (Py.set_ σ).1) in *.
    set (σ1 := (Py.set_ σ).2) in *.
    assert (Hr : r1 < length (sets σ1)).
    { subst r1 σ1; simpl. rewrite length_app; simpl; lia. }
    destruct (loop_spec (∪) (first :: rest) σ1 r1 (grows_wf _ _ Hg) Hr)
      as (Hg' & Hr' & Hge & Hc' & Hd').
    change (λ result term, Py.getitem term ≫= λ p, Py.union result p)
      with (round (∪)).
    unfold search_post. split_and!.
    + by eapply grows_trans.
    + done.
    + by rewrite Hq, Hd'.
    + rewrite Hc', Hc. apply foldl_ext_posting. intros t. apply Hg.
    + etrans; [|exact Hge]. done.
Qed.

Lemma not_search_spec query all_docs σ :
  index_wf σ → all_docs < length (sets σ) →
  search_post query σ (boolean_not_search query all_docs σ).2
    (boolean_not_search query all_docs σ).1
  ∧ result_of (boolean_not_search query all_docs) σ
    = not_value σ (contents σ all_docs) (preprocess query)
  ∧ length (sets σ) ≤ (boolean_not_search query all_docs σ).1.
Proof.
  intros Hwf Hall. unfold result_of, boolean_not_search.
  destruct (preprocess query) as [|first rest] eqn:Hq.
  - destruct (empty_query_post query σ Hwf Hq) as (Hp & Hc & Hl).
    split_and!; [exact Hp | exact Hc | exact Hl].
  - rewrite bind_run.
    change (Py.copy all_docs σ) with (Py.new_set (contents σ all_docs) σ).
    pose proof (new_set_grows σ (contents σ all_docs) Hwf) as Hg.
    pose proof (new_set_contents σ (contents σ all_docs)) as Hc.
    set (r1 := (Py.new_set (contents σ all_docs) σ).1) in *.
    set (σ1 := (Py.new_set (contents σ all_docs) σ).2) in *.
    assert (Hr : r1 < length (sets σ1)).
    { subst r1 σ1; simpl. rewrite length_app; simpl; lia. }
    destruct (loop_spec (∖) (first :: rest) σ1 r1 (grows_wf _ _ Hg) Hr)
      as (Hg' & Hr' & Hge & Hc' & Hd').
    change (λ result term, Py.getitem term ≫= λ p, Py.difference result p)
      with (round (∖)).
    unfold search_post. split_and!.
    + by eapply grows_trans.
    + done.
    + by rewrite Hq, Hd'.
    + rewrite Hc', Hc. apply foldl_ext_posting. intros t. apply Hg.
    + etrans; [|exact Hge]. done.
Qed.

Lemma foldl_difference_union (f : string → gset string) terms (u : gset string) :
  foldl (λ s term, s ∖ f term) u terms = u ∖ foldl (λ s term, s ∪ f term) ∅ terms.
Proof.
  apply set_eq. intros d.
  rewrite elem_of_difference, elem_of_foldl_difference, elem_of_foldl_union.
  set_solver.
Qed.

Lemma foldl_intersection_subseteq (f : string → gset string) terms (s : gset string) :
  foldl (λ s term, s ∩ f term) s terms ⊆ s.
Proof. intros d. rewrite elem_of_foldl_intersection. tauto. Qed.

Lemma and_value_subseteq_or_value σ terms : and_value σ terms ⊆ or_value σ terms.
Proof.
  destruct terms as [|first rest]; [done|].
  unfold and_value, or_value. intros d.
  rewrite elem_of_foldl_intersection, elem_of_foldl_union.
  intros [Hd _]. right. exists first. split; [apply list_elem_of_here | done].
Qed.

(** A search that meets no new term leaves the index as it was. *)
Lemma grows_index_eq σ σ' :
  grows σ σ' → dom (index σ') = dom (index σ) → index σ' = index σ.
Proof.
  intros Hg Hd. apply map_eq. intros term.
  destruct (index σ !! term) as [r|] eqn:E.
  - by apply Hg.
  - apply not_elem_of_dom. rewrite Hd. by apply not_elem_of_dom.
Qed.

Lemma search_post_frame query σ σ' r : search_post query σ σ' r → frame query σ σ'.
Proof.
  intros (Hg & _ & Hd). unfold frame. split_and!.
  - apply Hg.
  - apply Hg.
  - intros r' Hr'. by apply grows_lookup.
  - done.
  - intros term r' Hnone Hsome. split; [by eapply (grows_fresh _ _ Hg)|].
    pose proof (grows_posting _ _ Hg term) as Hp. unfold posting in Hp.
    by rewrite Hnone, Hsome in Hp.
  - intros Hall. apply grows_index_eq; [done|]. rewrite Hd.
    apply set_eq. intros term. rewrite elem_of_union, elem_of_list_to_set.
    split; [|tauto]. intros [H|H]; [done|]. apply elem_of_dom. auto.
Qed.

(** ** Building the index *)

Lemma create_inverted_index_loops documents :
  create_inverted_index documents
  = (Py.new_defaultdict;; Py.for_ (map_to_list documents) add_document tt).
Proof. reflexivity. Qed.

Lemma getitem_build σ term :
  build_inv σ →
  let r := (Py.getitem term σ).1 in
  let σ' := (Py.getitem term σ).2 in
  build_inv σ' ∧ index σ' !! term = Some r ∧ r < length (sets σ')
  ∧ (∀ t, posting σ' t = posting σ t)
  ∧ dom (index σ') = dom (index σ) ∪ {[term]}.
Proof.
  intros [Hwf Hinj].
  destruct (getitem_spec σ term Hwf) as (Hg & Hr & _ & Hd).
  assert (Hi : index (Py.getitem term σ).2 !! term = Some (Py.getitem term σ).1).
  { unfold Py.getitem. destruct (index σ !! term) as [r|] eqn:E; simpl; [done|].
    apply lookup_insert_eq. }
  assert (Hinj' : index_inj (Py.getitem term σ).2).
  { unfold Py.getitem. destruct (index σ !! term) as [r|] eqn:E; simpl; [done|].
    intros t1 t2 r; simpl.
    destruct (decide (term = t1)) as [<-|H1], (decide (term = t2)) as [<-|H2];
      rewrite ?lookup_insert_eq, ?lookup_insert_ne by done; try done.
    - intros [= <-] H. apply Hwf in H. lia.
    - intros H [= <-]. apply Hwf in H. lia.
    - apply Hinj. }
  split_and!; [split; [apply Hg | done] | done | done | apply Hg | done].
Qed.

Lemma add_posting_spec σ d token :
  build_inv σ →
  let σ' := (add_posting d tt token σ).2 in
  build_inv σ'
  ∧ (∀ t, posting σ' t
          = if decide (t = token) then posting σ t ∪ {[d]} else posting σ t)
  ∧ dom (index σ') = dom (index σ) ∪ {[token]}.
Proof.
  intros Hinv. unfold add_posting. rewrite bind_run.
  destruct (getitem_build σ token Hinv) as ([Hwf Hinj] & Hi & Hr & Hp & Hd).
  set (r := (Py.getitem token σ).1) in *.
  set (σ1 := (Py.getitem token σ).2) in *.
  simpl. split_and!.
  - split.
    + intros t r'; simpl. rewrite length_insert. apply Hwf.
    + exact Hinj.
  - intros t. rewrite <- Hp. unfold posting at 1; simpl.
    destruct (decide (t = token)) as [->|Hne].
    + rewrite Hi. unfold contents at 1; simpl.
      rewrite list_lookup_insert_eq by done. simpl.
      unfold posting. by rewrite Hi.
    + unfold posting. destruct (index σ1 !! t) as [r'|] eqn:E; [|done].
      unfold contents; simpl. rewrite list_lookup_insert_ne; [done|].
      intros <-. apply Hne. by apply (Hinj t token r).
  - done.
Qed.

Lemma add_tokens_spec d tokens : ∀ σ,
  build_inv σ →
  let σ' := (Py.for_ tokens (add_posting d) tt σ).2 in
  build_inv σ'
  ∧ (∀ t d', d' ∈ posting σ' t ↔ d' ∈ posting σ t ∨ (d' = d ∧ t ∈ tokens))
  ∧ (∀ t, t ∈ dom (index σ') ↔ t ∈ dom (index σ) ∨ t ∈ tokens).
Proof.
  induction tokens as [|token tokens IH]; intros σ Hinv; simpl.
  - split_and!; [done | |]; intros; rewrite ?elem_of_nil; tauto.
  - rewrite bind_run.
    destruct (add_posting_spec σ d token Hinv) as (Hinv1 & Hp1 & Hd1).
    destruct (add_posting d tt token σ) as [[] σ1]; simpl in *.
    destruct (IH σ1 Hinv1) as (Hinv2 & Hp2 & Hd2).
    split_and!; [done | |].
    + intros t d'. rewrite Hp2, Hp1, elem_of_cons.
      destruct (decide (t = token)) as [->|Hne].
      * rewrite elem_of_union, elem_of_singleton. tauto.
      * tauto.
    + intros t. rewrite Hd2, Hd1, elem_of_union, elem_of_singleton, elem_of_cons.
      tauto.
Qed.

Lemma add_documents_spec items : ∀ σ,
  build_inv σ →
  let σ' := (Py.for_ items add_document tt σ).2 in
  build_inv σ'
  ∧ (∀ t d, d ∈ posting σ' t
            ↔ d ∈ posting σ t ∨ ∃ text, (d, text) ∈ items ∧ t ∈ preprocess text)
  ∧ (∀ t, t ∈ dom (index σ')
          ↔ t ∈ dom (index σ) ∨ ∃ d text, (d, text) ∈ items ∧ t ∈ preprocess text).
Proof.
  induction items as [|[doc_id text] items IH]; intros σ Hinv; simpl.
  - split_and!; [done | intros t d | intros t].
    + split; [tauto|]. intros [H|(text & Hin & _)]; [done|].
      by apply elem_of_nil in Hin.
    + split; [tauto|]. intros [H|(d & text & Hin & _)]; [done|].
      by apply elem_of_nil in Hin.
  - rewrite bind_run.
    destruct (add_tokens_spec doc_id (preprocess text) σ Hinv) as (Hinv1 & Hp1 & Hd1).
    destruct (Py.for_ (preprocess text) (add_posting doc_id) tt σ) as [[] σ1]; simpl in *.
    destruct (IH σ1 Hinv1) as (Hinv2 & Hp2 & Hd2).
    split_and!; [done | |].
    + intros t d. rewrite Hp2, Hp1. split.
      * intros [[H|[-> H]]|(text' & Hin & H)]; [by left | |].
        -- right. exists text. split; [apply list_elem_of_here | done].
        -- right. exists text'. split; [by apply list_elem_of_further | done].
      * intros [H|(text' & Hin & H)]; [by left; left|].
        apply elem_of_cons in Hin as [[= -> ->]|Hin].
        -- left. right. done.
        -- right. by exists text'.
    + intros t. rewrite Hd2, Hd1. split.
      * intros [[H|H]|(d & text' & Hin & H)]; [by left | |].
        -- right. exists doc_id, text. split; [apply list_elem_of_here | done].
        -- right. exists d, text'. split; [by apply list_elem_of_further | done].
      * intros [H|(d & text' & Hin & H)]; [by left; left|].
        apply elem_of_cons in Hin as [[= -> ->]|Hin].
        -- left. right. done.
        -- right. by exists d, text'.
Qed.

Lemma posting_empty_index l term : posting (Store l ∅) term = ∅.
Proof. unfold posting; simpl. by rewrite lookup_empty. Qed.

Lemma build_inv_empty_index l : build_inv (Store l ∅).
Proof.
  split; [intros t r | intros t1 t2 r]; simpl; by rewrite lookup_empty.
Qed.

Lemma create_inverted_index_spec documents σ :
  let σ' := store_after (create_inverted_index documents) σ in
  build_inv σ'
  ∧ (∀ t d, d ∈ posting σ' t
            ↔ ∃ text, documents !! d = Some text ∧ t ∈ preprocess text)
  ∧ (∀ t, t ∈ dom (index σ')
          ↔ ∃ d text, documents !! d = Some text ∧ t ∈ preprocess text).
Proof.
  unfold store_after. rewrite create_inverted_index_loops, bind_run.
  simpl (Py.new_defaultdict σ).2.
  destruct (add_documents_spec (map_to_list documents) (Store (sets σ) ∅)
              (build_inv_empty_index _)) as (Hinv & Hp & Hd).
  split_and!; [done | |].
  - intros t d. rewrite Hp, posting_empty_index. split.
    + intros [H|(text & Hin%elem_of_map_to_list & H)]; [by apply not_elem_of_empty in H|].
      by exists text.
    + intros (text & Hin%elem_of_map_to_list & H). right. by exists text.
  - intros t. rewrite Hd. simpl. rewrite dom_empty_L. split.
    + intros [H|(d & text & Hin%elem_of_map_to_list & H)]; [by apply not_elem_of_empty in H|].
      by exists d, text.
    + intros (d & text & Hin%elem_of_map_to_list & H). right. by exists d, text.
Qed.

Lemma word_runs_skip pre s :
  all_chars (λ c, negb (is_word c)) pre = true →
  word_runs EmptyString (pre +:+ s) = word_runs EmptyString s.
Proof.
  induction pre as [|c pre IH]; [done|].
  intros H. simpl in H. apply andb_true_iff in H as [Hc Hpre].
  apply negb_true_iff in Hc.
  rewrite string_app_cons. simpl. rewrite Hc. by apply IH.
Qed.

Lemma word_prefix_app w post :
  all_chars is_word w = true →
  Regex.word_at (Regex.first_char post) = false →
  word_prefix (w +:+ post) = w ∧ after_word (w +:+ post) = post.
Proof.
  intros Hw Hpost. induction w as [|c w IH].
  - change (EmptyString +:+ post) with post.
    destruct post as [|d post]; [done|]. simpl in *. by rewrite Hpost.
  - simpl in Hw. apply andb_true_iff in Hw as [Hc Hw].
    rewrite string_app_cons. simpl. rewrite Hc.
    destruct (IH Hw) as [-> ->]. done.
Qed.

(** The runs, piece by piece: separators, then a run that cannot be
    extended, then the rest. *)
Lemma word_runs_decompose pre w post :
  all_chars (λ c, negb (is_word c)) pre = true →
  w ≠ EmptyString → all_chars is_word w = true →
  Regex.word_at (Regex.first_char post) = false →
  word_runs EmptyString (pre +:+ w +:+ post) = w :: word_runs EmptyString post.
Proof.
  intros Hpre Hne Hw Hpost. rewrite word_runs_skip by done.
  destruct w as [|c w]; [done|]. simpl in Hw.
  apply andb_true_iff in Hw as [Hc Hw].
  rewrite string_app_cons. simpl. rewrite Hc.
  change (EmptyString +:+ String c EmptyString) with (String c EmptyString).
  rewrite word_runs_cur by done.
  by destruct (word_prefix_app w post Hw Hpost) as [-> ->].
Qed.

(** ** The loader *)

Lemma read_all_raises fs folder_path names : ∀ documents name e,
  name ∈ names → Loader.endswith name ".txt" = true →
  Loader.read_text fs folder_path name = Loader.Raises e →
  ∃ e', Loader.read_all fs folder_path names documents = Loader.Raises e'.
Proof.
  induction names as [|name0 names IH]; intros documents name e Hin Hext Hread.
  - by apply elem_of_nil in Hin.
  - simpl. apply elem_of_cons in Hin as [->|Hin].
    + rewrite Hext, Hread. by exists e.
    + destruct (Loader.endswith name0 ".txt"); [|by eapply IH].
      destruct (Loader.read_text fs folder_path name0) as [text|e0]; [by eapply IH|].
      by exists e0.
Qed.

Lemma read_all_returns fs folder_path names : ∀ documents,
  (∀ name, name ∈ names → Loader.endswith name ".txt" = true →
     ∃ text, Loader.read_text fs folder_path name = Loader.Returns text) →
  ∃ m, Loader.read_all fs folder_path names documents = Loader.Returns m
    ∧ ∀ name text, m !! name = Some text ↔
        (name ∈ names ∧ Loader.endswith name ".txt" = true
         ∧ Loader.read_text fs folder_path name = Loader.Returns text)
        ∨ (¬ (name ∈ names ∧ Loader.endswith name ".txt" = true)
           ∧ documents !! name = Some text).
Proof.
  induction names as [|name0 names IH]; intros documents Hok; simpl.
  - exists documents. split; [done|]. intros name text. split.
    + intros H. right. split; [|done]. intros [Hin _]. by apply elem_of_nil in Hin.
    + intros [(Hin & _)|[_ H]]; [by apply elem_of_nil in Hin | done].
  - assert (Hok' : ∀ name, name ∈ names → Loader.endswith name ".txt" = true →
              ∃ text, Loader.read_text fs folder_path name = Loader.Returns text).
    { intros name Hin. apply Hok. by apply list_elem_of_further. }
    destruct (Loader.endswith name0 ".txt") eqn:Hext.
    + destruct (Hok name0 (list_elem_of_here _ _) Hext) as [text0 Hread0].
      rewrite Hread0.
      destruct (IH (<[name0 := text0]> documents) Hok') as (m & -> & Hm).
      exists m. split; [done|]. intros name text. rewrite Hm, elem_of_cons.
      destruct (decide (name = name0)) as [->|Hne].
      * rewrite lookup_insert_eq. split.
        -- intros [(Hin & He & Hr)|[Hn [= <-]]]; left; auto.
        -- intros [(_ & _ & Hr)|[Hn _]]; [|exfalso; apply Hn; auto].
           destruct (decide (name0 ∈ names)) as [Hin|Hnin]; [left; auto|].
           right. split; [tauto|]. congruence.
      * rewrite lookup_insert_ne by done. split.
        -- intros [(Hin & He & Hr)|[Hn Hd]]; [left; auto|].
           right. split; [|done]. intros [[?|Hin] He]; [done|]. apply Hn; auto.
        -- intros [([?|Hin] & He & Hr)|[Hn Hd]]; [done | left; auto |].
           right. split; [|done]. intros [Hin He]. apply Hn; auto.
    + destruct (IH documents Hok') as (m & -> & Hm).
      exists m. split; [done|]. intros name text. rewrite Hm, elem_of_cons.
      split.
      * intros [(Hin & He & Hr)|[Hn Hd]]; [left; auto|].
        right. split; [|done]. intros [[->|Hin] He]; [congruence|]. apply Hn; auto.
      * intros [([->|Hin] & He & Hr)|[Hn Hd]]; [congruence | left; auto |].
        right. split; [|done]. intros [Hin He]. apply Hn; auto.
Qed.

(** ** The results, by membership *)

Lemma elem_of_and_value σ terms d :
  d ∈ and_value σ terms
  ↔ terms ≠ [] ∧ ∀ term, term ∈ terms → d ∈ posting σ term.
Proof.
  destruct terms as [|first rest]; simpl.
  - split; [by intros ?%not_elem_of_empty | by intros [? _]].
  - rewrite elem_of_foldl_intersection. split.
    + intros [H1 H2]. split; [done|]. intros term [->|Hin]%elem_of_cons; auto.
    + intros [_ H]. split; [apply H, list_elem_of_here|].
      intros term Hin. by apply H, list_elem_of_further.
Qed.

Lemma elem_of_or_value σ terms d :
  d ∈ or_value σ terms ↔ ∃ term, term ∈ terms ∧ d ∈ posting σ term.
Proof.
  unfold or_value. rewrite elem_of_foldl_union. split; [|by right].
  by intros [?%not_elem_of_empty|H].
Qed.

Lemma elem_of_not_value σ universe terms d :
  d ∈ not_value σ universe terms
  ↔ terms ≠ [] ∧ d ∈ universe ∧ ∀ term, term ∈ terms → d ∉ posting σ term.
Proof.
  destruct terms as [|first rest]; unfold not_value.
  - split; [by intros ?%not_elem_of_empty | by intros [? _]].
  - rewrite elem_of_foldl_difference.
    split; [intros [? ?]; by split_and! | intros (_ & ? & ?); by split].
Qed.

(** ** AND within OR, for every query *)

Lemma and_subseteq_or query σ :
  index_wf σ →
  result_of (boolean_and_search query) σ ⊆ result_of (boolean_or_search query) σ.
Proof.
  intros Hwf.
  destruct (and_search_spec query σ Hwf) as [_ ->].
  destruct (or_search_spec query σ Hwf) as (_ & -> & _).
  apply and_value_subseteq_or_value.
Qed.

(** The index of the scenario is well formed. *)
Lemma scenario_wf : index_wf scenario.
Proof. apply (create_inverted_index_spec scenario_docs scenario_start). Qed.

(** ** The scenario of the specification, evaluated *)

Example scenario_tokens :
  preprocess "The cat, the DOG_2 and  a mouse-trap the"
  = ["cat"; "dog_2"; "mouse"; "trap"].
Proof. vm_compute. reflexivity. Qed.

Example scenario_index :
  posting scenario "cat" = {["d1"; "d3"]}
  ∧ posting scenario "sat" = {["d1"; "d2"]}
  ∧ posting scenario "dog" = {["d2"; "d3"]}
  ∧ dom (index scenario) = {["cat"; "sat"; "dog"]}.
Proof. split_and!; vm_compute; reflexivity. Qed.

Example scenario_and : result_of (boolean_and_search "cat sat") scenario = {["d1"]}.
Proof. vm_compute. reflexivity. Qed.

Example scenario_or :
  result_of (boolean_or_search "cat dog") scenario = {["d1"; "d2"; "d3"]}.
Proof. vm_compute. reflexivity. Qed.

Example scenario_not : result_of (boolean_not_search "cat" 0) scenario = {["d2"]}.
Proof. vm_compute. reflexivity. Qed.

(** A single-term AND search hands out the set object of the index
    itself; OR and NOT hand out new objects. *)
Example scenario_alias :
  index scenario !! "cat" = Some (boolean_and_search "cat" scenario).1
  ∧ (boolean_or_search "cat" scenario).1 = length (sets scenario) + 1.
Proof. split; vm_compute; reflexivity. Qed.

(** * The claims of the specification *)

(** ** C1: what a search changes *)

(** C1, as stated, fails: a search on a term that is not a key of the
    index leaves it a key.  In the scenario ["bird"] is in no document;
    after an AND, an OR or a NOT search for it, it is a key of the index,
    which is therefore not the index the search was given. *)
Lemma search_inserts_missing_term :
  index scenario !! "bird" = None
  ∧ index (store_after (boolean_and_search "bird") scenario) !! "bird" = Some 4
  ∧ index (store_after (boolean_or_search "bird") scenario) !! "bird" = Some 5
  ∧ index (store_after (boolean_not_search "bird" 0) scenario) !! "bird" = Some 5
  ∧ index (store_after (boolean_and_search "bird") scenario) ≠ index scenario
  ∧ index (store_after (boolean_or_search "bird") scenario) ≠ index scenario
  ∧ index (store_after (boolean_not_search "bird" 0) scenario) ≠ index scenario.
Proof.
  split_and!; try (vm_compute; reflexivity);
    apply (bool_decide_unpack _); vm_compute; exact I.
Qed.

(** C1, amended: for every query and every well-formed index, each of the
    three searches leaves the posting set of every term (looked up with
    the empty default), every key and every set object as they were; the
    keys afterwards are the old keys and the terms of the query, a missing
    term having been bound to a new, empty set; and when every term of the
    query was a key already the index is unchanged.  The result is the
    one computed from the index as it was, with the empty set for a term
    that was not a key: AND returns the documents that are in the set of
    every term, each of them a key; OR those in the set of some term that
    is a key; NOT those of the universe in the set of no term that is a
    key. *)
Theorem search_frame query all_docs σ :
  index_wf σ → all_docs < length (sets σ) →
  frame query σ (store_after (boolean_and_search query) σ)
  ∧ frame query σ (store_after (boolean_or_search query) σ)
  ∧ frame query σ (store_after (boolean_not_search query all_docs) σ)
  ∧ (∀ d, d ∈ result_of (boolean_and_search query) σ
          ↔ preprocess query ≠ []
            ∧ ∀ term, term ∈ preprocess query →
                ∃ r, index σ !! term = Some r ∧ d ∈ contents σ r)
  ∧ (∀ d, d ∈ result_of (boolean_or_search query) σ
          ↔ ∃ term r, term ∈ preprocess query
                      ∧ index σ !! term = Some r ∧ d ∈ contents σ r)
  ∧ (∀ d, d ∈ result_of (boolean_not_search query all_docs) σ
          ↔ preprocess query ≠ [] ∧ d ∈ contents σ all_docs
            ∧ ∀ term r, term ∈ preprocess query → index σ !! term = Some r →
                        d ∉ contents σ r).
Proof.
  intros Hwf Hall.
  destruct (and_search_spec query σ Hwf) as [Hand ->].
  destruct (or_search_spec query σ Hwf) as (Hor & -> & _).
  destruct (not_search_spec query all_docs σ Hwf Hall) as (Hnot & -> & _).
  unfold store_after. split_and!.
  - by eapply search_post_frame.
  - by eapply search_post_frame.
  - by eapply search_post_frame.
  - intros d. rewrite elem_of_and_value. unfold posting. split.
    + intros [Hne H]. split; [done|]. intros term Hin. specialize (H term Hin).
      destruct (index σ !! term) as [r|]; [by exists r|].
      by apply not_elem_of_empty in H.
    + intros [Hne H]. split; [done|]. intros term Hin.
      by destruct (H term Hin) as (r & -> & Hd).
  - intros d. rewrite elem_of_or_value. unfold posting. split.
    + intros (term & Hin & H). destruct (index σ !! term) as [r|] eqn:E.
      * by exists term, r.
      * by apply not_elem_of_empty in H.
    + intros (term & r & Hin & E & H). exists term. by rewrite E.
  - intros d. rewrite elem_of_not_value. unfold posting. split.
    + intros (Hne & Hu & H). split_and!; [done | done |]. intros term r Hin E.
      specialize (H term Hin). by rewrite E in H.
    + intros (Hne & Hu & H). split_and!; [done | done |]. intros term Hin.
      destruct (index σ !! term) as [r|] eqn:E; [by eapply H|].
      apply not_elem_of_empty.
Qed.

Lemma search_frame_witness :
  frame "cat bird" scenario (store_after (boolean_and_search "cat bird") scenario)
  ∧ frame "cat bird" scenario (store_after (boolean_or_search "cat bird") scenario)
  ∧ frame "cat bird" scenario (store_after (boolean_not_search "cat bird" 0) scenario)
  ∧ (∀ d, d ∈ result_of (boolean_and_search "cat bird") scenario
          ↔ preprocess "cat bird" ≠ []
            ∧ ∀ term, term ∈ preprocess "cat bird" →
                ∃ r, index scenario !! term = Some r ∧ d ∈ contents scenario r)
  ∧ (∀ d, d ∈ result_of (boolean_or_search "cat bird") scenario
          ↔ ∃ term r, term ∈ preprocess "cat bird"
                      ∧ index scenario !! term = Some r ∧ d ∈ contents scenario r)
  ∧ (∀ d, d ∈ result_of (boolean_not_search "cat bird" 0) scenario
          ↔ preprocess "cat bird" ≠ [] ∧ d ∈ contents scenario 0
            ∧ ∀ term r, term ∈ preprocess "cat bird" →
                        index scenario !! term = Some r → d ∉ contents scenario r).
Proof.
  apply (search_frame "cat bird" 0 scenario).
  - exact scenario_wf.
  - vm_compute. lia.
Defined.

(** The same, run: "bird" is no key; AND finds nothing, OR and NOT are
    those of "cat" alone, and "bird" is afterwards bound to an empty set
    that was not there before. *)
Example search_missing_term :
  result_of (boolean_and_search "cat bird") scenario = ∅
  ∧ result_of (boolean_or_search "cat bird") scenario = {["d1"; "d3"]}
  ∧ result_of (boolean_not_search "cat bird" 0) scenario = {["d2"]}
  ∧ index (store_after (boolean_and_search "cat bird") scenario) !! "bird"
    = Some (length (sets scenario))
  ∧ contents (store_after (boolean_and_search "cat bird") scenario)
      (length (sets scenario)) = ∅.
Proof. split_and!; vm_compute; reflexivity. Qed.

(** ** C2: a failed load and an empty load *)

(** C2, as stated, fails: the loader returns the same value, the empty
    dictionary, for a folder that cannot be listed and for a folder that
    holds no file. *)
Lemma load_failure_returns_empty_mapping :
  Loader.try_body fs_missing "docs" = Loader.Raises "No such file or directory"
  ∧ Loader.try_body fs_empty "docs" = Loader.Returns ∅
  ∧ (Loader.load_documents_from_folder fs_missing "docs").1
    = (Loader.load_documents_from_folder fs_empty "docs").1.
Proof. split_and!; reflexivity. Qed.

(** C2, amended: loading never raises.  When the folder cannot be listed,
    or a [.txt] file in it cannot be read, the loader shows one error
    dialog and returns the empty dictionary, the value a successful load
    of zero documents returns too; when everything is read it shows no
    dialog and returns one entry per [.txt] file.  A failure is told from
    an empty load by the dialog, not by the value returned. *)
Theorem load_failure_shown_by_dialog fs folder_path :
  (∀ e, Loader.listdir fs folder_path = Loader.Raises e →
     Loader.load_documents_from_folder fs folder_path
     = (∅, [Loader.showerror "Error" ("Error reading documents: " +:+ e)]))
  ∧ (∀ names name e,
       Loader.listdir fs folder_path = Loader.Returns names →
       name ∈ names → Loader.endswith name ".txt" = true →
       Loader.read_text fs folder_path name = Loader.Raises e →
       ∃ e', Loader.load_documents_from_folder fs folder_path
             = (∅, [Loader.showerror "Error" ("Error reading documents: " +:+ e')]))
  ∧ (∀ names,
       Loader.listdir fs folder_path = Loader.Returns names →
       (∀ name, name ∈ names → Loader.endswith name ".txt" = true →
          ∃ text, Loader.read_text fs folder_path name = Loader.Returns text) →
       (Loader.load_documents_from_folder fs folder_path).2 = []
       ∧ ∀ name text,
           (Loader.load_documents_from_folder fs folder_path).1 !! name = Some text
           ↔ name ∈ names ∧ Loader.endswith name ".txt" = true
             ∧ Loader.read_text fs folder_path name = Loader.Returns text)
  ∧ (Loader.listdir fs folder_path = Loader.Returns [] →
       Loader.load_documents_from_folder fs folder_path = (∅, []))
  ∧ ((Loader.load_documents_from_folder fs folder_path).2 ≠ [] →
       (Loader.load_documents_from_folder fs folder_path).1 = ∅).
Proof.
  unfold Loader.load_documents_from_folder, Loader.try_body. split_and!.
  - by intros e ->.
  - intros names name e -> Hin Hext Hread.
    destruct (read_all_raises fs folder_path names ∅ name e Hin Hext Hread)
      as [e' ->].
    by exists e'.
  - intros names -> Hok.
    destruct (read_all_returns fs folder_path names ∅ Hok) as (m & -> & Hm).
    split; [done|]. intros name text. simpl. rewrite Hm, lookup_empty.
    split; [intros [H|[_ [=]]]; exact H | by left].
  - by intros ->.
  - destruct (Loader.listdir fs folder_path) as [names|e]; [|done].
    by destruct (Loader.read_all fs folder_path names ∅).
Qed.

(** ** C3: NOT and the complement of OR *)

(** C3, as stated, fails on a query that tokenizes to no term: over the
    universe of the scenario, NOT of the empty query is the empty set
    while the universe minus OR of the empty query is the whole universe. *)
Lemma not_of_empty_query_is_not_complement :
  result_of (boolean_not_search "" 0) scenario = ∅
  ∧ contents scenario 0 ∖ result_of (boolean_or_search "") scenario
    = {["d1"; "d2"; "d3"]}
  ∧ result_of (boolean_not_search "" 0) scenario
    ≠ contents scenario 0 ∖ result_of (boolean_or_search "") scenario.
Proof.
  split_and!; try (vm_compute; reflexivity).
  apply (bool_decide_unpack _); vm_compute; exact I.
Qed.

(** C3, amended: for every query whose tokenization is not empty, every
    well-formed index and every universe, the result of the NOT search is
    the universe minus the result of the OR search on the same query; for
    a query that tokenizes to no term the NOT search returns the empty
    set. *)
Theorem not_is_universe_minus_or query all_docs σ :
  index_wf σ → all_docs < length (sets σ) →
  (preprocess query ≠ [] →
     result_of (boolean_not_search query all_docs) σ
     = contents σ all_docs ∖ result_of (boolean_or_search query) σ)
  ∧ (preprocess query = [] →
     result_of (boolean_not_search query all_docs) σ = ∅).
Proof.
  intros Hwf Hall.
  destruct (not_search_spec query all_docs σ Hwf Hall) as (_ & -> & _).
  destruct (or_search_spec query σ Hwf) as (_ & -> & _).
  unfold not_value, or_value. split.
  - destruct (preprocess query) as [|first rest]; [done|]. intros _.
    apply foldl_difference_union.
  - by intros ->.
Qed.

Lemma not_is_universe_minus_or_witness :
  result_of (boolean_not_search "cat" 0) scenario
  = contents scenario 0 ∖ result_of (boolean_or_search "cat") scenario.
Proof.
  apply (not_is_universe_minus_or "cat" 0 scenario).
  - exact scenario_wf.
  - vm_compute. lia.
  - vm_compute. discriminate.
Defined.

(** ** C4: the index that is built *)

(** C4: for every document mapping, in the index built from it a document
    D is in the posting set of a term T exactly when T occurs in the
    tokens of the content of D; the keys of the index are exactly the
    terms that occur in some document; and the index built from the empty
    mapping is empty. *)
Theorem index_correct documents σ :
  (∀ D T, D ∈ posting (store_after (create_inverted_index documents) σ) T
          ↔ ∃ text, documents !! D = Some text ∧ T ∈ preprocess text)
  ∧ (∀ T, T ∈ dom (index (store_after (create_inverted_index documents) σ))
          ↔ ∃ D text, documents !! D = Some text ∧ T ∈ preprocess text)
  ∧ index (store_after (create_inverted_index ∅) σ) = ∅.
Proof.
  destruct (create_inverted_index_spec documents σ) as (_ & Hp & Hd).
  split_and!.
  - intros D T. apply Hp.
  - exact Hd.
  - unfold store_after.
    by rewrite create_inverted_index_loops, bind_run, map_to_list_empty.
Qed.

(** ** C5: AND is the intersection *)

(** C5: for every query whose tokenization is not empty and every
    well-formed index, the AND search returns the posting set of the first
    term intersected in turn with that of every further term, that is the
    documents in the posting set of every term of the query; a term that
    is not a key counts as an empty posting set, so the result is empty as
    soon as one term of the query is not in the index. *)
Theorem and_is_intersection query first rest σ :
  index_wf σ → preprocess query = first :: rest →
  result_of (boolean_and_search query) σ
  = foldl (λ s term, s ∩ posting σ term) (posting σ first) rest
  ∧ (∀ d, d ∈ result_of (boolean_and_search query) σ
          ↔ ∀ term, term ∈ preprocess query → d ∈ posting σ term)
  ∧ (∀ term, term ∈ preprocess query → index σ !! term = None →
       result_of (boolean_and_search query) σ = ∅).
Proof.
  intros Hwf Hq.
  destruct (and_search_spec query σ Hwf) as [_ ->].
  rewrite Hq. unfold and_value.
  assert (Hmem : ∀ d,
    d ∈ foldl (λ s term, s ∩ posting σ term) (posting σ first) rest
    ↔ ∀ term, term ∈ first :: rest → d ∈ posting σ term).
  { intros d. rewrite elem_of_foldl_intersection. split.
    - intros [H1 H2] term [->|Hin]%elem_of_cons; auto.
    - intros H. split; [apply H, list_elem_of_here|].
      intros term Hin. by apply H, list_elem_of_further. }
  split_and!; [done | exact Hmem |].
  intros term Hin Hnone. apply set_eq. intros d. rewrite Hmem. split.
  - intros H. specialize (H term Hin). unfold posting in H. by rewrite Hnone in H.
  - by intros ?%not_elem_of_empty.
Qed.

Lemma and_is_intersection_witness :
  result_of (boolean_and_search "cat sat") scenario
  = foldl (λ s term, s ∩ posting scenario term) (posting scenario "cat") ["sat"]
  ∧ (∀ d, d ∈ result_of (boolean_and_search "cat sat") scenario
          ↔ ∀ term, term ∈ preprocess "cat sat" → d ∈ posting scenario term)
  ∧ (∀ term, term ∈ preprocess "cat sat" → index scenario !! term = None →
       result_of (boolean_and_search "cat sat") scenario = ∅).
Proof.
  apply (and_is_intersection "cat sat" "cat" ["sat"] scenario).
  - exact scenario_wf.
  - vm_compute. reflexivity.
Defined.

(** ** C6: the tokenizer *)

(** C6, as stated, fails: [preprocess] lowercases the text before it cuts
    it into runs, and [str.lower] is not a matter of single characters.
    The lower case of I with dot above is an i and a combining dot, which
    is no word character: the text of that one letter gives the token
    "i", while its one run, lowercased, is the i with the dot.  And of
    the text alpha, sigma, full stop, alpha, all capitals, the first
    token ends in a small sigma, a letter following after the full stop,
    while the run of the first two letters, lowercased on its own, ends
    in a final sigma. *)
Lemma preprocess_lowers_before_cutting :
  preprocess (String capital_i_dot EmptyString) = ["i"]
  ∧ tokenize_spec (String capital_i_dot EmptyString)
    = [String "i" (String combining_dot EmptyString)]
  ∧ preprocess
      (String capital_alpha (String capital_sigma
         (String "." (String capital_alpha EmptyString))))
    = [String small_alpha (String small_sigma EmptyString);
       String small_alpha EmptyString]
  ∧ tokenize_spec
      (String capital_alpha (String capital_sigma
         (String "." (String capital_alpha EmptyString))))
    = [String small_alpha (String final_sigma EmptyString);
       String small_alpha EmptyString]
  ∧ preprocess (String capital_i_dot EmptyString)
    ≠ tokenize_spec (String capital_i_dot EmptyString).
Proof. split_and!; try (vm_compute; reflexivity). vm_compute. discriminate. Qed.


(** ** C7: a query without terms *)

(** C7: for every query that tokenizes to no term, every index and every
    universe, each of the AND, OR and NOT searches returns the empty set. *)
Theorem empty_query_empty_result query all_docs σ :
  preprocess query = [] →
  result_of (boolean_and_search query) σ = ∅
  ∧ result_of (boolean_or_search query) σ = ∅
  ∧ result_of (boolean_not_search query all_docs) σ = ∅.
Proof.
  intros Hq.
  unfold result_of, boolean_and_search, boolean_or_search, boolean_not_search.
  rewrite Hq. split_and!; apply new_set_contents.
Qed.

Lemma empty_query_empty_result_witness :
  contents scenario 0 = {["d1"; "d2"; "d3"]}
  ∧ result_of (boolean_and_search "The, of and!") scenario = ∅
  ∧ result_of (boolean_or_search "The, of and!") scenario = ∅
  ∧ result_of (boolean_not_search "The, of and!" 0) scenario = ∅.
Proof.
  split; [vm_compute; reflexivity|].
  apply (empty_query_empty_result "The, of and!" 0 scenario).
  vm_compute. reflexivity.
Defined.

(** ** C8: AND within OR *)

(** C8: for every pair of terms t1, t2 and every well-formed index, the
    result of the AND search on the query made of t1 and t2 is a subset of
    the result of the OR search on the same query; when the query
    tokenizes to t1 and t2 the two results are the intersection and the
    union of their posting sets. *)
Theorem and_within_or t1 t2 σ :
  index_wf σ →
  result_of (boolean_and_search (t1 +:+ " " +:+ t2)) σ
  ⊆ result_of (boolean_or_search (t1 +:+ " " +:+ t2)) σ
  ∧ (preprocess (t1 +:+ " " +:+ t2) = [t1; t2] →
     result_of (boolean_and_search (t1 +:+ " " +:+ t2)) σ
     = posting σ t1 ∩ posting σ t2
     ∧ result_of (boolean_or_search (t1 +:+ " " +:+ t2)) σ
       = posting σ t1 ∪ posting σ t2).
Proof.
  intros Hwf. split; [by apply and_subseteq_or|]. intros Hq.
  destruct (and_search_spec (t1 +:+ " " +:+ t2) σ Hwf) as [_ ->].
  destruct (or_search_spec (t1 +:+ " " +:+ t2) σ Hwf) as (_ & -> & _).
  rewrite Hq. unfold and_value, or_value. simpl.
  split; [done|]. by rewrite (left_id_L ∅ (∪)).
Qed.

Lemma and_within_or_witness :
  result_of (boolean_and_search ("cat" +:+ " " +:+ "sat")) scenario
  ⊆ result_of (boolean_or_search ("cat" +:+ " " +:+ "sat")) scenario
  ∧ (preprocess ("cat" +:+ " " +:+ "sat") = ["cat"; "sat"] →
     result_of (boolean_and_search ("cat" +:+ " " +:+ "sat")) scenario
     = posting scenario "cat" ∩ posting scenario "sat"
     ∧ result_of (boolean_or_search ("cat" +:+ " " +:+ "sat")) scenario
       = posting scenario "cat" ∪ posting scenario "sat").
Proof.
  apply (and_within_or "cat" "sat" scenario).
  exact scenario_wf.
Defined.

(** ** C9: NOT stays within the universe and works on a copy *)

(** C9: for every query, every well-formed index and every universe set
    [all_docs], the result of the NOT search is a subset of [all_docs];
    the set object [all_docs] is afterwards what it was, and the result is
    another object. *)
Theorem not_within_universe query all_docs σ :
  index_wf σ → all_docs < length (sets σ) →
  result_of (boolean_not_search query all_docs) σ ⊆ contents σ all_docs
  ∧ sets (store_after (boolean_not_search query all_docs) σ) !! all_docs
    = sets σ !! all_docs
  ∧ (boolean_not_search query all_docs σ).1 ≠ all_docs.
Proof.
  intros Hwf Hall.
  destruct (not_search_spec query all_docs σ Hwf Hall) as ((Hg & _) & -> & Hfresh).
  split_and!.
  - unfold not_value. destruct (preprocess query) as [|first rest]; [done|].
    intros d. rewrite elem_of_foldl_difference. tauto.
  - by apply grows_lookup.
  - lia.
Qed.

Lemma not_within_universe_witness :
  result_of (boolean_not_search "cat" 0) scenario ⊆ contents scenario 0
  ∧ sets (store_after (boolean_not_search "cat" 0) scenario) !! 0
    = sets scenario !! 0
  ∧ (boolean_not_search "cat" 0 scenario).1 ≠ 0.
Proof.
  apply (not_within_universe "cat" 0 scenario).
  - exact scenario_wf.
  - vm_compute. lia.
Defined.

(** ** C10: one term *)

(** C10: for every query that tokenizes to exactly one term and every
    well-formed index, the AND search and the OR search return the same
    set of documents, the posting set of that term. *)
Theorem single_term_and_eq_or query term σ :
  index_wf σ → preprocess query = [term] →
  result_of (boolean_and_search query) σ = result_of (boolean_or_search query) σ
  ∧ result_of (boolean_and_search query) σ = posting σ term.
Proof.
  intros Hwf Hq.
  destruct (and_search_spec query σ Hwf) as [_ ->].
  destruct (or_search_spec query σ Hwf) as (_ & -> & _).
  rewrite Hq. unfold and_value, or_value. simpl.
  by rewrite (left_id_L ∅ (∪)).
Qed.

Lemma single_term_and_eq_or_witness :
  result_of (boolean_and_search "the cat") scenario
  = result_of (boolean_or_search "the cat") scenario
  ∧ result_of (boolean_and_search "the cat") scenario = posting scenario "cat".
Proof.
  apply (single_term_and_eq_or "the cat" "cat" scenario).
  - exact scenario_wf.
  - vm_compute. reflexivity.
Defined.

(** * Further properties of the code *)

(** ** The tokens [preprocess] returns *)

(** A stretch of word characters is its own single run. *)
Lemma word_runs_word w :
  w ≠ EmptyString → all_chars is_word w = true → word_runs EmptyString w = [w].
Proof.
  intros Hne Hw.
  pose proof (word_runs_decompose EmptyString w EmptyString eq_refl Hne Hw eq_refl) as H.
  change (EmptyString +:+ w +:+ EmptyString) with (w +:+ EmptyString) in H.
  by rewrite string_app_empty_r in H.
Qed.

(** Every token returned is a non-empty string of word characters, is in
    lower case, and is not a stopword. *)
Theorem preprocess_tokens_normal text token :
  token ∈ preprocess text →
  token ≠ EmptyString ∧ all_chars is_word token = true
  ∧ lower token = token ∧ token ∉ stopwords.
Proof.
  rewrite preprocess_runs.
  intros [Hstop Hrun]%list_elem_of_filter.
  destruct (word_runs_tokens (lower text) EmptyString token eq_refl Hrun) as [Hne Hw].
  split_and!; [done | done | | done].
  apply lower_from_stable.
  apply (word_runs_all stable (lower text) EmptyString token); [done | | done].
  apply lower_from_is_stable.
Qed.

Lemma preprocess_tokens_normal_witness :
  "dog_2" ≠ EmptyString ∧ all_chars is_word "dog_2" = true
  ∧ lower "dog_2" = "dog_2" ∧ "dog_2" ∉ stopwords.
Proof.
  apply (preprocess_tokens_normal "The cat, the DOG_2!" "dog_2").
  apply (bool_decide_unpack _). vm_compute. exact I.
Defined.

(** A token, given back to [preprocess], comes out as itself alone: a
    query made of a term of the index looks up that very term. *)
Theorem preprocess_token_again text token :
  token ∈ preprocess text → preprocess token = [token].
Proof.
  intros (Hne & Hw & Hlow & Hstop)%preprocess_tokens_normal.
  rewrite preprocess_runs, Hlow.
  rewrite word_runs_word by done.
  by rewrite filter_cons_True, filter_nil.
Qed.

Lemma preprocess_token_again_witness : preprocess "dog_2" = ["dog_2"].
Proof.
  apply (preprocess_token_again "The cat, the DOG_2!" "dog_2").
  apply (bool_decide_unpack _). vm_compute. exact I.
Defined.



(** With the apostrophe between them the first token ends in a small
    sigma, on its own in a final sigma. *)
Example apostrophe_does_not_separate :
  preprocess (String capital_alpha (String capital_sigma EmptyString)
              +:+ String "'" (String capital_alpha EmptyString))
  = [String small_alpha (String small_sigma EmptyString);
     String small_alpha EmptyString]
  ∧ preprocess (String capital_alpha (String capital_sigma EmptyString))
    = [String small_alpha (String final_sigma EmptyString)].
Proof. split; vm_compute; reflexivity. Qed.

(** ** The searches, as sets of documents *)

(** The value of a search is a matter of the posting sets, the universe
    and the set of terms only. *)
Lemma value_ext op σ1 σ2 u terms1 terms2 :
  (∀ term, posting σ1 term = posting σ2 term) →
  (∀ term, term ∈ terms1 ↔ term ∈ terms2) →
  value op σ1 u terms1 = value op σ2 u terms2.
Proof.
  intros Hp Ht. apply set_eq. intros d.
  assert (Hnil : terms1 ≠ [] ↔ terms2 ≠ []).
  { destruct terms1 as [|t1 l1], terms2 as [|t2 l2]; try done.
    - pose proof (proj2 (Ht t2) (list_elem_of_here _ _)) as H.
      by apply elem_of_nil in H.
    - pose proof (proj1 (Ht t1) (list_elem_of_here _ _)) as H.
      by apply elem_of_nil in H. }
  destruct op; simpl.
  - rewrite !elem_of_and_value, Hnil.
    split; intros [? H]; (split; [done|]); intros term Hin;
      [rewrite <- Hp | rewrite Hp]; apply H, Ht, Hin.
  - rewrite !elem_of_or_value.
    split; intros (term & Hin & H); exists term;
      [rewrite <- Hp | rewrite Hp]; split; try done; by apply Ht.
  - rewrite !elem_of_not_value, Hnil.
    split; intros (? & ? & H); (split_and!; [done | done |]); intros term Hin;
      [rewrite <- Hp | rewrite Hp]; apply H, Ht, Hin.
Qed.

Lemma search_spec op query all_docs σ :
  index_wf σ → all_docs < length (sets σ) →
  search_post query σ (search op query all_docs σ).2 (search op query all_docs σ).1
  ∧ result_of (search op query all_docs) σ
    = value op σ (contents σ all_docs) (preprocess query).
Proof.
  intros Hwf Hall. destruct op; simpl.
  - apply and_search_spec, Hwf.
  - destruct (or_search_spec query σ Hwf) as (? & ? & _). done.
  - destruct (not_search_spec query all_docs σ Hwf Hall) as (? & ? & _). done.
Qed.

(** The OR search returns the documents in the posting set of some term
    of the query: the union of the posting sets, a term that is not a key
    adding nothing. *)
Theorem or_is_union query σ :
  index_wf σ →
  result_of (boolean_or_search query) σ
  = foldl (λ s term, s ∪ posting σ term) ∅ (preprocess query)
  ∧ (∀ d, d ∈ result_of (boolean_or_search query) σ
          ↔ ∃ term r, term ∈ preprocess query
                      ∧ index σ !! term = Some r ∧ d ∈ contents σ r).
Proof.
  intros Hwf. destruct (or_search_spec query σ Hwf) as (_ & -> & _).
  split; [done|]. intros d. rewrite elem_of_or_value. unfold posting. split.
  - intros (term & Hin & H). destruct (index σ !! term) as [r|] eqn:E.
    + by exists term, r.
    + by apply not_elem_of_empty in H.
  - intros (term & r & Hin & E & H). exists term. by rewrite E.
Qed.

Lemma or_is_union_witness :
  result_of (boolean_or_search "cat bird") scenario
  = foldl (λ s term, s ∪ posting scenario term) ∅ (preprocess "cat bird")
  ∧ (∀ d, d ∈ result_of (boolean_or_search "cat bird") scenario
          ↔ ∃ term r, term ∈ preprocess "cat bird"
                      ∧ index scenario !! term = Some r ∧ d ∈ contents scenario r).
Proof. apply (or_is_union "cat bird" scenario). exact scenario_wf. Defined.

(** The NOT search on a query with at least one term returns the
    documents of the universe that are in the posting set of no term of
    the query; a term that is not a key removes nothing. *)
Theorem not_is_difference query first rest all_docs σ :
  index_wf σ → all_docs < length (sets σ) → preprocess query = first :: rest →
  result_of (boolean_not_search query all_docs) σ
  = foldl (λ s term, s ∖ posting σ term) (contents σ all_docs) (first :: rest)
  ∧ (∀ d, d ∈ result_of (boolean_not_search query all_docs) σ
          ↔ d ∈ contents σ all_docs
            ∧ ∀ term r, term ∈ preprocess query → index σ !! term = Some r →
                        d ∉ contents σ r).
Proof.
  intros Hwf Hall Hq.
  destruct (not_search_spec query all_docs σ Hwf Hall) as (_ & -> & _).
  rewrite Hq. split; [done|]. intros d. rewrite elem_of_not_value. unfold posting.
  split.
  - intros (_ & Hu & H). split; [done|]. intros term r Hin E.
    specialize (H term Hin). by rewrite E in H.
  - intros [Hu H]. split_and!; [done | done |]. intros term Hin.
    destruct (index σ !! term) as [r|] eqn:E; [by eapply H|].
    apply not_elem_of_empty.
Qed.

Lemma not_is_difference_witness :
  result_of (boolean_not_search "cat bird" 0) scenario
  = foldl (λ s term, s ∖ posting scenario term) (contents scenario 0) ["cat"; "bird"]
  ∧ (∀ d, d ∈ result_of (boolean_not_search "cat bird" 0) scenario
          ↔ d ∈ contents scenario 0
            ∧ ∀ term r, term ∈ preprocess "cat bird" →
                        index scenario !! term = Some r → d ∉ contents scenario r).
Proof.
  apply (not_is_difference "cat bird" "cat" ["bird"] 0 scenario).
  - exact scenario_wf.
  - vm_compute. lia.
  - vm_compute. reflexivity.
Defined.

(** The order of the terms of a query and their repetition do not
    matter: two queries with the same terms get the same result from each
    of the three searches. *)
Theorem search_same_terms op query1 query2 all_docs σ :
  index_wf σ → all_docs < length (sets σ) →
  (∀ term, term ∈ preprocess query1 ↔ term ∈ preprocess query2) →
  result_of (search op query1 all_docs) σ = result_of (search op query2 all_docs) σ.
Proof.
  intros Hwf Hall Hterms.
  destruct (search_spec op query1 all_docs σ Hwf Hall) as [_ ->].
  destruct (search_spec op query2 all_docs σ Hwf Hall) as [_ ->].
  by apply value_ext.
Qed.

Lemma search_same_terms_witness :
  result_of (search AND "cat sat" 0) scenario
  = result_of (search AND "sat, the cat; SAT" 0) scenario.
Proof.
  apply (search_same_terms AND "cat sat" "sat, the cat; SAT" 0 scenario).
  - exact scenario_wf.
  - vm_compute. lia.
  - assert (preprocess "cat sat" = ["cat"; "sat"]) as -> by (vm_compute; reflexivity).
    assert (preprocess "sat, the cat; SAT" = ["sat"; "cat"; "sat"]) as ->
      by (vm_compute; reflexivity).
    intros term. rewrite !elem_of_cons, elem_of_nil. tauto.
Defined.

(** More terms narrow AND and NOT and widen OR: when every term of a
    first query, which has one at least, is a term of a second, the AND
    and the NOT result of the second are within those of the first, and
    the OR result of the first is within that of the second. *)
Theorem search_more_terms query1 query2 all_docs σ :
  index_wf σ → all_docs < length (sets σ) →
  preprocess query1 ≠ [] →
  (∀ term, term ∈ preprocess query1 → term ∈ preprocess query2) →
  result_of (boolean_and_search query2) σ ⊆ result_of (boolean_and_search query1) σ
  ∧ result_of (boolean_or_search query1) σ ⊆ result_of (boolean_or_search query2) σ
  ∧ result_of (boolean_not_search query2 all_docs) σ
    ⊆ result_of (boolean_not_search query1 all_docs) σ.
Proof.
  intros Hwf Hall Hne Hsub.
  destruct (and_search_spec query1 σ Hwf) as [_ ->].
  destruct (and_search_spec query2 σ Hwf) as [_ ->].
  destruct (or_search_spec query1 σ Hwf) as (_ & -> & _).
  destruct (or_search_spec query2 σ Hwf) as (_ & -> & _).
  destruct (not_search_spec query1 all_docs σ Hwf Hall) as (_ & -> & _).
  destruct (not_search_spec query2 all_docs σ Hwf Hall) as (_ & -> & _).
  split_and!; intros d.
  - rewrite !elem_of_and_value. intros [_ H]. split; [done|]. auto.
  - rewrite !elem_of_or_value. intros (term & Hin & H). exists term. auto.
  - rewrite !elem_of_not_value. intros (_ & Hu & H). split_and!; [done | done |]. auto.
Qed.

Lemma search_more_terms_witness :
  result_of (boolean_and_search "cat sat") scenario
  ⊆ result_of (boolean_and_search "cat") scenario
  ∧ result_of (boolean_or_search "cat") scenario
    ⊆ result_of (boolean_or_search "cat sat") scenario
  ∧ result_of (boolean_not_search "cat sat" 0) scenario
    ⊆ result_of (boolean_not_search "cat" 0) scenario.
Proof.
  apply (search_more_terms "cat" "cat sat" 0 scenario).
  - exact scenario_wf.
  - vm_compute. lia.
  - vm_compute. discriminate.
  - assert (preprocess "cat" = ["cat"]) as -> by (vm_compute; reflexivity).
    assert (preprocess "cat sat" = ["cat"; "sat"]) as -> by (vm_compute; reflexivity).
    intros term. rewrite !elem_of_cons, elem_of_nil. tauto.
Defined.

(** Searches do not disturb one another: although a search may add keys
    to the index, a search run after another returns what it would have
    returned before it; and a search run a second time adds no key. *)
Theorem search_after_search op1 query1 op2 query2 all_docs σ :
  index_wf σ → all_docs < length (sets σ) →
  result_of (search op2 query2 all_docs)
    (store_after (search op1 query1 all_docs) σ)
  = result_of (search op2 query2 all_docs) σ
  ∧ index (store_after (search op1 query1 all_docs)
             (store_after (search op1 query1 all_docs) σ))
    = index (store_after (search op1 query1 all_docs) σ).
Proof.
  intros Hwf Hall. unfold store_after.
  destruct (search_spec op1 query1 all_docs σ Hwf Hall) as [(Hg & Hr & Hd) _].
  set (σ1 := (search op1 query1 all_docs σ).2) in *.
  assert (Hall1 : all_docs < length (sets σ1)).
  { pose proof (grows_length _ _ Hg). lia. }
  pose proof (grows_wf _ _ Hg) as Hwf1.
  split.
  - destruct (search_spec op2 query2 all_docs σ1 Hwf1 Hall1) as [_ ->].
    destruct (search_spec op2 query2 all_docs σ Hwf Hall) as [_ ->].
    rewrite (grows_contents σ σ1) by done.
    apply value_ext; [apply Hg | done].
  - destruct (search_spec op1 query1 all_docs σ1 Hwf1 Hall1) as [Hpost _].
    apply search_post_frame in Hpost as (_ & _ & _ & _ & _ & Hsame).
    apply Hsame. intros term Hin. apply elem_of_dom. rewrite Hd.
    apply elem_of_union. right. by apply elem_of_list_to_set.
Qed.

Lemma search_after_search_witness :
  result_of (search AND "cat sat" 0) (store_after (search OR "bird fish" 0) scenario)
  = result_of (search AND "cat sat" 0) scenario
  ∧ index (store_after (search OR "bird fish" 0)
             (store_after (search OR "bird fish" 0) scenario))
    = index (store_after (search OR "bird fish" 0) scenario).
Proof.
  apply (search_after_search OR "bird fish" AND "cat sat" 0 scenario).
  - exact scenario_wf.
  - vm_compute. lia.
Defined.

(** Which object a search hands out.  An AND search on a query of one
    term that is a key returns the very set object the index holds for
    that term and changes nothing; an OR and a NOT search always return
    an object made for the occasion, which is none of the index. *)
Theorem search_result_object query all_docs σ :
  index_wf σ →
  (∀ term r, preprocess query = [term] → index σ !! term = Some r →
     boolean_and_search query σ = (r, σ))
  ∧ (∀ term r, index σ !! term = Some r →
       r ≠ (boolean_or_search query σ).1
       ∧ r ≠ (boolean_not_search query all_docs σ).1).
Proof.
  intros Hwf. split.
  - intros term r Hq E. unfold boolean_and_search. rewrite Hq. simpl.
    rewrite bind_run. unfold Py.getitem. by rewrite E.
  - intros term r E. apply Hwf in E.
    destruct (or_search_spec query σ Hwf) as (_ & _ & Hor).
    assert (Hnot : length (sets σ) ≤ (boolean_not_search query all_docs σ).1).
    { unfold boolean_not_search. destruct (preprocess query) as [|first rest]; [done|].
      rewrite bind_run.
      change (Py.copy all_docs σ) with (Py.new_set (contents σ all_docs) σ).
      pose proof (new_set_grows σ (contents σ all_docs) Hwf) as Hg.
      set (r1 := (Py.new_set (contents σ all_docs) σ).1) in *.
      set (σ1 := (Py.new_set (contents σ all_docs) σ).2) in *.
      assert (Hr : r1 < length (sets σ1)).
      { subst r1 σ1; simpl. rewrite length_app; simpl; lia. }
      destruct (loop_spec (∖) (first :: rest) σ1 r1 (grows_wf _ _ Hg) Hr)
        as (_ & _ & Hge & _).
      change (λ result term, Py.getitem term ≫= λ p, Py.difference result p)
        with (round (∖)).
      etrans; [|exact Hge]. done. }
    lia.
Qed.

Lemma search_result_object_witness :
  (∀ term r, preprocess "cat" = [term] → index scenario !! term = Some r →
     boolean_and_search "cat" scenario = (r, scenario))
  ∧ (∀ term r, index scenario !! term = Some r →
       r ≠ (boolean_or_search "cat" scenario).1
       ∧ r ≠ (boolean_not_search "cat" 0 scenario).1).
Proof. apply (search_result_object "cat" 0 scenario). exact scenario_wf. Defined.

(** ** The index that [create_inverted_index] builds *)

Lemma built_store documents σ :
  let σ' := store_after (create_inverted_index documents) σ in
  index_wf σ' ∧ index_inj σ'
  ∧ (∀ term d, d ∈ posting σ' term
               ↔ ∃ text, documents !! d = Some text ∧ term ∈ preprocess text)
  ∧ (∀ term r, index σ' !! term = Some r → contents σ' r ≠ ∅).
Proof.
  destruct (create_inverted_index_spec documents σ) as ([Hwf Hinj] & Hp & Hd).
  split_and!; [done | done | done |].
  intros term r E.
  assert (Hin : term ∈ dom (index (store_after (create_inverted_index documents) σ))).
  { apply elem_of_dom. by exists r. }
  apply Hd in Hin as (d & text & Hdoc & Htok).
  assert (Hmem : d ∈ posting (store_after (create_inverted_index documents) σ) term).
  { apply Hp. by exists text. }
  unfold posting in Hmem. rewrite E in Hmem. intros Hempty.
  rewrite Hempty in Hmem. by apply not_elem_of_empty in Hmem.
Qed.

(** In the index that is built every key has a set object of its own,
    and that set is not empty: a term is a key only with a document that
    holds it. *)
Theorem built_index_keys documents σ :
  (∀ term r, index (store_after (create_inverted_index documents) σ) !! term = Some r →
     r < length (sets (store_after (create_inverted_index documents) σ))
     ∧ contents (store_after (create_inverted_index documents) σ) r ≠ ∅)
  ∧ (∀ term1 term2 r,
       index (store_after (create_inverted_index documents) σ) !! term1 = Some r →
       index (store_after (create_inverted_index documents) σ) !! term2 = Some r →
       term1 = term2).
Proof.
  destruct (built_store documents σ) as (Hwf & Hinj & _ & Hne).
  split; [|exact Hinj]. intros term r E. split; [by eapply Hwf | by eapply Hne].
Qed.

Lemma getitem_above n σ term :
  index_wf σ → index_above n σ → n ≤ length (sets σ) →
  index_above n (Py.getitem term σ).2.
Proof.
  intros Hwf Habove Hn. unfold Py.getitem.
  destruct (index σ !! term) as [r|] eqn:E; simpl; [done|].
  intros t r; simpl. destruct (decide (term = t)) as [->|Hne].
  - rewrite lookup_insert_eq. by intros [= <-].
  - rewrite lookup_insert_ne by done. apply Habove.
Qed.

Lemma add_posting_above n σ d token :
  build_inv σ → index_above n σ → n ≤ length (sets σ) →
  let σ' := (add_posting d tt token σ).2 in
  index_above n σ' ∧ n ≤ length (sets σ')
  ∧ ∀ r, r < n → sets σ' !! r = sets σ !! r.
Proof.
  intros Hinv Habove Hn. unfold add_posting. rewrite bind_run.
  destruct (getitem_build σ token Hinv) as (_ & Hi & Hr & _).
  destruct (getitem_spec σ token (proj1 Hinv)) as (Hg & _).
  pose proof (getitem_above n σ token (proj1 Hinv) Habove Hn) as Habove1.
  set (r1 := (Py.getitem token σ).1) in *.
  set (σ1 := (Py.getitem token σ).2) in *.
  pose proof (grows_length _ _ Hg). simpl. split_and!.
  - exact Habove1.
  - rewrite length_insert. lia.
  - intros r Hlt. apply Habove1 in Hi.
    rewrite list_lookup_insert_ne by lia. apply grows_lookup; [done | lia].
Qed.

Lemma add_tokens_above n d tokens : ∀ σ,
  build_inv σ → index_above n σ → n ≤ length (sets σ) →
  let σ' := (Py.for_ tokens (add_posting d) tt σ).2 in
  index_above n σ' ∧ n ≤ length (sets σ')
  ∧ ∀ r, r < n → sets σ' !! r = sets σ !! r.
Proof.
  induction tokens as [|token tokens IH]; intros σ Hinv Habove Hn; simpl; [done|].
  rewrite bind_run.
  destruct (add_posting_spec σ d token Hinv) as (Hinv1 & _).
  destruct (add_posting_above n σ d token Hinv Habove Hn) as (Ha1 & Hn1 & Hold1).
  destruct (add_posting d tt token σ) as [[] σ1]; simpl in *.
  destruct (IH σ1 Hinv1 Ha1 Hn1) as (Ha2 & Hn2 & Hold2).
  split_and!; [done | done |]. intros r Hlt. by rewrite Hold2, Hold1.
Qed.

Lemma add_documents_above n items : ∀ σ,
  build_inv σ → index_above n σ → n ≤ length (sets σ) →
  let σ' := (Py.for_ items add_document tt σ).2 in
  index_above n σ' ∧ n ≤ length (sets σ')
  ∧ ∀ r, r < n → sets σ' !! r = sets σ !! r.
Proof.
  induction items as [|[doc_id text] items IH]; intros σ Hinv Habove Hn; simpl; [done|].
  rewrite bind_run.
  destruct (add_tokens_spec doc_id (preprocess text) σ Hinv) as (Hinv1 & _).
  destruct (add_tokens_above n doc_id (preprocess text) σ Hinv Habove Hn)
    as (Ha1 & Hn1 & Hold1).
  destruct (Py.for_ (preprocess text) (add_posting doc_id) tt σ) as [[] σ1]; simpl in *.
  destruct (IH σ1 Hinv1 Ha1 Hn1) as (Ha2 & Hn2 & Hold2).
  split_and!; [done | done |]. intros r Hlt. by rewrite Hold2, Hold1.
Qed.

(** Building an index starts afresh and touches nothing that was there:
    the posting sets and the keys built from a mapping are the same
    whatever index and whatever sets there were before, and every set
    object there was before is left as it was. *)
Theorem build_replaces_index documents σ1 σ2 :
  (∀ term, posting (store_after (create_inverted_index documents) σ1) term
           = posting (store_after (create_inverted_index documents) σ2) term)
  ∧ dom (index (store_after (create_inverted_index documents) σ1))
    = dom (index (store_after (create_inverted_index documents) σ2))
  ∧ (∀ r, r < length (sets σ1) →
       sets (store_after (create_inverted_index documents) σ1) !! r = sets σ1 !! r).
Proof.
  destruct (create_inverted_index_spec documents σ1) as (_ & Hp1 & Hd1).
  destruct (create_inverted_index_spec documents σ2) as (_ & Hp2 & Hd2).
  split_and!.
  - intros term. apply set_eq. intros d. by rewrite Hp1, Hp2.
  - apply set_eq. intros term. by rewrite Hd1, Hd2.
  - unfold store_after. rewrite create_inverted_index_loops, bind_run.
    simpl (Py.new_defaultdict σ1).2.
    destruct (add_documents_above (length (sets σ1)) (map_to_list documents)
                (Store (sets σ1) ∅) (build_inv_empty_index _)) as (_ & _ & Hold).
    + intros term r; simpl. by rewrite lookup_empty.
    + done.
    + exact Hold.
Qed.

(** ** Searching the index built from the documents *)

(** From the documents to the answer.  On the index built from a mapping,
    with the set of its keys as universe, a query with at least one term
    gets from AND the documents whose tokens hold every term, from NOT
    the documents whose tokens hold none; OR returns the documents whose
    tokens hold some term of the query. *)
Theorem search_built_index documents query σ :
  (∀ d, d ∈ result_of (boolean_and_search query)
              (Py.new_set (dom documents)
                 (store_after (create_inverted_index documents) σ)).2
        ↔ preprocess query ≠ []
          ∧ ∃ text, documents !! d = Some text
                    ∧ ∀ term, term ∈ preprocess query → term ∈ preprocess text)
  ∧ (∀ d, d ∈ result_of (boolean_or_search query)
                (Py.new_set (dom documents)
                   (store_after (create_inverted_index documents) σ)).2
          ↔ ∃ text, documents !! d = Some text
                    ∧ ∃ term, term ∈ preprocess query ∧ term ∈ preprocess text)
  ∧ (∀ d, d ∈ result_of
                (boolean_not_search query
                   (Py.new_set (dom documents)
                      (store_after (create_inverted_index documents) σ)).1)
                (Py.new_set (dom documents)
                   (store_after (create_inverted_index documents) σ)).2
          ↔ preprocess query ≠ []
            ∧ ∃ text, documents !! d = Some text
                      ∧ ∀ term, term ∈ preprocess query → term ∉ preprocess text).
Proof.
  destruct (built_store documents σ) as (Hwf & _ & Hp & _).
  set (σ1 := store_after (create_inverted_index documents) σ) in *.
  pose proof (new_set_grows σ1 (dom documents) Hwf) as Hg.
  pose proof (new_set_contents σ1 (dom documents)) as Hc.
  set (all_docs := (Py.new_set (dom documents) σ1).1) in *.
  set (σ2 := (Py.new_set (dom documents) σ1).2) in *.
  assert (Hall : all_docs < length (sets σ2)).
  { subst all_docs σ2; simpl. rewrite length_app; simpl; lia. }
  pose proof (grows_wf _ _ Hg) as Hwf2.
  assert (Hp2 : ∀ term d, d ∈ posting σ2 term
            ↔ ∃ text, documents !! d = Some text ∧ term ∈ preprocess text).
  { intros term d. by rewrite (grows_posting _ _ Hg). }
  destruct (and_search_spec query σ2 Hwf2) as [_ ->].
  destruct (or_search_spec query σ2 Hwf2) as (_ & -> & _).
  destruct (not_search_spec query all_docs σ2 Hwf2 Hall) as (_ & -> & _).
  rewrite Hc. split_and!; intros d.
  - rewrite elem_of_and_value. split.
    + intros [Hne H]. split; [done|].
      destruct (preprocess query) as [|first rest] eqn:Hq; [done|].
      destruct (proj1 (Hp2 first d) (H first (list_elem_of_here _ _)))
        as (text & Hdoc & _).
      exists text. split; [done|]. intros term Hin.
      destruct (proj1 (Hp2 term d) (H term Hin)) as (text' & Hdoc' & Htok).
      congruence.
    + intros (Hne & text & Hdoc & H). split; [done|].
      intros term Hin. apply Hp2. exists text. auto.
  - rewrite elem_of_or_value. split.
    + intros (term & Hin & (text & Hdoc & Htok)%Hp2). exists text.
      split; [done|]. by exists term.
    + intros (text & Hdoc & term & Hin & Htok). exists term.
      split; [done|]. apply Hp2. by exists text.
  - rewrite elem_of_not_value, elem_of_dom. split.
    + intros (Hne & [text Hdoc] & H). split; [done|]. exists text.
      split; [done|]. intros term Hin Htok. apply (H term Hin), Hp2.
      by exists text.
    + intros (Hne & text & Hdoc & H). split_and!; [done | by exists text |].
      intros term Hin (text' & Hdoc' & Htok)%Hp2.
      apply (H term Hin). congruence.
Qed.

(** ** What the loader returns *)

Lemma endswith_unfold s suffix :
  Loader.endswith s suffix
  = (String.eqb s suffix
     || match s with
        | EmptyString => false
        | String _ s' => Loader.endswith s' suffix
        end).
Proof. by destruct s. Qed.

Lemma endswith_suffix s suffix :
  Loader.endswith s suffix = true ↔ ∃ stem, s = stem +:+ suffix.
Proof.
  split.
  - induction s as [|c s IH]; rewrite endswith_unfold.
    + rewrite orb_false_r. intros H. apply String.eqb_eq in H as ->.
      by exists EmptyString.
    + intros [H|H]%orb_true_iff.
      * apply String.eqb_eq in H as <-. by exists EmptyString.
      * destruct (IH H) as [stem ->]. by exists (String c stem).
  - intros [stem ->]. induction stem as [|c stem IH]; rewrite endswith_unfold.
    + change (EmptyString +:+ suffix) with suffix. by rewrite String.eqb_refl.
    + rewrite string_app_cons, IH. apply orb_true_r.
Qed.

Lemma read_all_keys fs folder_path names : ∀ documents m,
  Loader.read_all fs folder_path names documents = Loader.Returns m →
  ∀ name text, m !! name = Some text →
    (name ∈ names ∧ Loader.endswith name ".txt" = true
     ∧ Loader.read_text fs folder_path name = Loader.Returns text)
    ∨ documents !! name = Some text.
Proof.
  induction names as [|name0 names IH]; intros documents m; simpl.
  - intros [= ->] name text H. by right.
  - destruct (Loader.endswith name0 ".txt") eqn:Hext.
    + destruct (Loader.read_text fs folder_path name0) as [text0|e] eqn:Hread; [|done].
      intros Hm name text H.
      destruct (IH _ _ Hm name text H) as [(Hin & He & Hr)|Hd].
      * left. split_and!; [by apply list_elem_of_further | done | done].
      * destruct (decide (name0 = name)) as [<-|Hne].
        -- rewrite lookup_insert_eq in Hd. injection Hd as <-.
           left. split_and!; [apply list_elem_of_here | done | done].
        -- rewrite lookup_insert_ne in Hd by done. by right.
    + intros Hm name text H.
      destruct (IH _ _ Hm name text H) as [(Hin & He & Hr)|Hd]; [|by right].
      left. split_and!; [by apply list_elem_of_further | done | done].
Qed.

(** Whatever the file system does, an entry of the dictionary returned is
    a file the folder lists, whose name ends in [.txt], with the text
    read from it: no other file is ever loaded. *)
Theorem loader_only_txt fs folder_path name text :
  (Loader.load_documents_from_folder fs folder_path).1 !! name = Some text →
  ∃ names stem,
    Loader.listdir fs folder_path = Loader.Returns names
    ∧ name ∈ names ∧ name = stem +:+ ".txt"
    ∧ Loader.read_text fs folder_path name = Loader.Returns text.
Proof.
  unfold Loader.load_documents_from_folder, Loader.try_body.
  destruct (Loader.listdir fs folder_path) as [names|e]; simpl; [|by rewrite lookup_empty].
  destruct (Loader.read_all fs folder_path names ∅) as [m|e] eqn:Hm; simpl;
    [|by rewrite lookup_empty].
  intros H.
  destruct (read_all_keys fs folder_path names ∅ m Hm name text H)
    as [(Hin & [stem Hs]%endswith_suffix & Hr)|Hd]; [|by rewrite lookup_empty in Hd].
  by exists names, stem.
Qed.

Lemma loader_only_txt_witness :
  ∃ names stem,
    Loader.listdir fs_notes "docs" = Loader.Returns names
    ∧ "d2.txt" ∈ names ∧ "d2.txt" = stem +:+ ".txt"
    ∧ Loader.read_text fs_notes "docs" "d2.txt" = Loader.Returns "the dog sat".
Proof.
  apply (loader_only_txt fs_notes "docs" "d2.txt" "the dog sat").
  vm_compute. reflexivity.
Defined.

(** ** The application *)

Lemma perform_search_cases a :
  Gui.perform_search a
  = let made := Py.new_set (dom (Gui.documents a)) (Gui.heap a) in
    let a1 := Gui.with_heap made.2 a in
    if bool_decide (index (Gui.heap a) = ∅) then
      Gui.Done (Gui.say (Gui.showinfo "Info" "Please load documents first.") a1)
    else if String.eqb (Gui.query_entry a) EmptyString then
      Gui.Done (Gui.say (Gui.showinfo "Info" "Please enter a query.") a1)
    else
      match Gui.operator_of (Gui.search_type a) with
      | Some op =>
          let found := search op (Gui.query_entry a) made.1 made.2 in
          Gui.display_search_results found.1 (Gui.with_heap found.2 a1)
      | None => Gui.Done (Gui.say (Gui.showerror "Error" "Invalid search type.") a1)
      end.
Proof.
  unfold Gui.perform_search, Gui.operator_of. cbn -[String.eqb bool_decide].
  destruct (bool_decide (index (Gui.heap a) = ∅)); [done|].
  destruct (String.eqb (Gui.query_entry a) EmptyString); [done|].
  destruct (String.eqb (Gui.search_type a) "AND"); [done|].
  destruct (String.eqb (Gui.search_type a) "OR"); [done|].
  by destruct (String.eqb (Gui.search_type a) "NOT").
Qed.

Lemma show_documents_ok documents ids : ∀ panel,
  (∀ d, d ∈ ids → is_Some (documents !! d)) →
  Gui.show_documents documents ids panel
  = inl (panel ++ flat_map (λ doc_id,
                    ["Document: " +:+ doc_id +:+ Gui.nl;
                     default EmptyString (documents !! doc_id) +:+ Gui.nl +:+ Gui.nl])
                  ids).
Proof.
  induction ids as [|d ids IH]; intros panel Hin; simpl.
  - by rewrite app_nil_r.
  - destruct (Hin d (list_elem_of_here _ _)) as [text ->]. simpl.
    rewrite IH by (intros d' Hd'; by apply Hin, list_elem_of_further).
    by rewrite <- !app_assoc.
Qed.

Lemma display_ok result a :
  (∀ d, d ∈ contents (Gui.heap a) result → is_Some (Gui.documents a !! d)) →
  Gui.display_search_results result a
  = Gui.Done (Gui.with_results
                (Gui.rendering (Gui.documents a) (contents (Gui.heap a) result)) a).
Proof.
  intros Hin. unfold Gui.display_search_results, Gui.rendering.
  destruct (bool_decide (contents (Gui.heap a) result = ∅)); [done|].
  rewrite show_documents_ok; [done|].
  intros d Hd. by apply Hin, elem_of_elements.
Qed.

Lemma value_loaded op σ (docs : gmap string string) terms d :
  (∀ term d, d ∈ posting σ term → is_Some (docs !! d)) →
  d ∈ value op σ (dom docs) terms → is_Some (docs !! d).
Proof.
  intros Hp. destruct op; simpl.
  - rewrite elem_of_and_value. intros [Hne H].
    destruct terms as [|first rest]; [done|].
    apply (Hp first), H, list_elem_of_here.
  - rewrite elem_of_or_value. intros (term & _ & H). by apply (Hp term).
  - rewrite elem_of_not_value. intros (_ & H & _). by apply elem_of_dom.
Qed.

Lemma value_no_terms op σ u : value op σ u [] = ∅.
Proof. by destruct op. Qed.

(** The set made for [all_docs] changes no posting set. *)
Lemma all_docs_made (docs : gmap string string) σ :
  index_wf σ →
  let made := Py.new_set (dom docs) σ in
  grows σ made.2 ∧ made.1 < length (sets made.2)
  ∧ contents made.2 made.1 = dom docs ∧ index made.2 = index σ.
Proof.
  intros Hwf. split_and!.
  - by apply new_set_grows.
  - simpl. rewrite length_app; simpl; lia.
  - apply new_set_contents.
  - done.
Qed.

Lemma perform_search_consistent a :
  Gui.consistent a →
  ∃ a', Gui.perform_search a = Gui.Done a'
    ∧ Gui.consistent a' ∧ Gui.documents a' = Gui.documents a
    ∧ (∀ term, posting (Gui.heap a') term = posting (Gui.heap a) term)
    ∧ (index (Gui.heap a) ≠ ∅ → Gui.query_entry a ≠ EmptyString →
       ∀ op, Gui.operator_of (Gui.search_type a) = Some op →
         Gui.results_text a'
         = Gui.rendering (Gui.documents a)
             (value op (Gui.heap a) (dom (Gui.documents a))
                (preprocess (Gui.query_entry a)))
         ∧ Gui.dialogs a' = Gui.dialogs a).
Proof.
  intros [Hwf Hdocs]. rewrite perform_search_cases.
  destruct (all_docs_made (Gui.documents a) (Gui.heap a) Hwf) as (Hg & Hall & Hc & Hi).
  set (made := Py.new_set (dom (Gui.documents a)) (Gui.heap a)) in *.
  cbv zeta.
  assert (Hcons1 : ∀ d0, Gui.consistent (Gui.say d0 (Gui.with_heap made.2 a))).
  { intros d0. split; simpl; [apply Hg|].
    intros term d. rewrite (grows_posting _ _ Hg). apply Hdocs. }
  destruct (bool_decide (index (Gui.heap a) = ∅)) eqn:Hempty.
  { eexists. split_and!; [done | apply Hcons1 | done | apply Hg |].
    intros Hne. by apply bool_decide_eq_true in Hempty. }
  destruct (String.eqb (Gui.query_entry a) EmptyString) eqn:Hquery.
  { eexists. split_and!; [done | apply Hcons1 | done | apply Hg |].
    intros _ Hne. by apply String.eqb_eq in Hquery. }
  destruct (Gui.operator_of (Gui.search_type a)) as [op|] eqn:Hop.
  2:{ eexists. split_and!; [done | apply Hcons1 | done | apply Hg |]. by intros _ _ op. }
  destruct (search_spec op (Gui.query_entry a) made.1 made.2 (grows_wf _ _ Hg) Hall)
    as [(Hg' & _ & _) Hval].
  unfold result_of in Hval.
  set (found := search op (Gui.query_entry a) made.1 made.2) in *.
  assert (Hvalue : contents found.2 found.1
            = value op (Gui.heap a) (dom (Gui.documents a))
                (preprocess (Gui.query_entry a))).
  { rewrite Hval, Hc. apply value_ext; [apply Hg | done]. }
  rewrite display_ok.
  2:{ simpl. rewrite Hvalue. intros d. by apply value_loaded. }
  eexists. split_and!; [done | | done | |].
  - split; simpl; [apply Hg'|].
    intros term d. rewrite (grows_posting _ _ Hg'), (grows_posting _ _ Hg).
    apply Hdocs.
  - intros term. simpl. by rewrite (grows_posting _ _ Hg'), (grows_posting _ _ Hg).
  - intros _ _ op' [= <-]. simpl. by rewrite Hvalue.
Qed.

Lemma load_documents_loaded fs chosen a :
  chosen ≠ EmptyString →
  (Loader.load_documents_from_folder fs chosen).1 ≠ ∅ →
  Gui.load_documents fs chosen a
  = let loaded := Loader.load_documents_from_folder fs chosen in
    let σ := store_after (create_inverted_index loaded.1) (Gui.heap a) in
    Gui.App loaded.1 σ chosen (Gui.query_entry a) (Gui.search_type a)
      (size loaded.1) (Gui.display_inverted_index σ) (Gui.results_text a)
      ((Gui.dialogs a ++ (Gui.of_loader <$> loaded.2))
       ++ [Gui.showinfo "Success" "Documents loaded successfully!"]).
Proof.
  intros Hchosen Hne. unfold Gui.load_documents.
  destruct (String.eqb chosen EmptyString) eqn:E;
    [by apply String.eqb_eq in E|].
  by rewrite bool_decide_eq_true_2.
Qed.

Lemma load_documents_nothing fs chosen a :
  chosen ≠ EmptyString →
  (Loader.load_documents_from_folder fs chosen).1 = ∅ →
  Gui.load_documents fs chosen a
  = Gui.App ∅ (Gui.heap a) chosen (Gui.query_entry a) (Gui.search_type a)
      (Gui.doc_count_label a) (Gui.index_text a) (Gui.results_text a)
      ((Gui.dialogs a
        ++ (Gui.of_loader <$> (Loader.load_documents_from_folder fs chosen).2))
       ++ [Gui.showinfo "Info" "No documents found in the selected folder."]).
Proof.
  intros Hchosen Hnone. unfold Gui.load_documents.
  destruct (String.eqb chosen EmptyString) eqn:E;
    [by apply String.eqb_eq in E|].
  rewrite bool_decide_eq_false_2 by (by intros H; apply H).
  by rewrite Hnone.
Qed.

Lemma load_documents_consistent fs chosen a :
  chosen ≠ EmptyString →
  (Loader.load_documents_from_folder fs chosen).1 ≠ ∅ →
  Gui.consistent (Gui.load_documents fs chosen a).
Proof.
  intros Hchosen Hne. rewrite load_documents_loaded by done. cbv zeta.
  destruct (built_store (Loader.load_documents_from_folder fs chosen).1 (Gui.heap a))
    as (Hwf & _ & Hp & _).
  split; simpl; [done|].
  intros term d (text & Hdoc & _)%Hp. by exists text.
Qed.

Lemma app_loaded_consistent : Gui.consistent app_loaded.
Proof.
  apply load_documents_consistent; [done|].
  apply (bool_decide_unpack _). vm_compute. exact I.
Qed.

Lemma app_ready_consistent : Gui.consistent app_ready.
Proof. exact app_loaded_consistent. Qed.

Lemma value_index_nonempty op σ terms d :
  d ∈ value op σ ∅ terms → index σ ≠ ∅.
Proof.
  assert (Hkey : ∀ term, d ∈ posting σ term → index σ ≠ ∅).
  { intros term. unfold posting. intros H Hempty.
    rewrite Hempty, lookup_empty in H. by apply not_elem_of_empty in H. }
  destruct op; simpl.
  - rewrite elem_of_and_value. intros [Hne H].
    destruct terms as [|first rest]; [done|].
    apply (Hkey first), H, list_elem_of_here.
  - rewrite elem_of_or_value. intros (term & _ & H). by apply (Hkey term).
  - rewrite elem_of_not_value. by intros (_ & ?%not_elem_of_empty & _).
Qed.

(** While the documents and the index belong together a search never
    ends in a [KeyError]: it ends normally, it leaves the documents and
    every posting set as they were, and the two still belong together. *)
Theorem perform_search_no_key_error a :
  Gui.consistent a →
  ∃ a', Gui.perform_search a = Gui.Done a'
    ∧ Gui.consistent a' ∧ Gui.documents a' = Gui.documents a
    ∧ ∀ term, posting (Gui.heap a') term = posting (Gui.heap a) term.
Proof.
  intros Hcons.
  destruct (perform_search_consistent a Hcons) as (a' & Hrun & Hc & Hd & Hp & _).
  by exists a'.
Qed.

Lemma perform_search_no_key_error_witness :
  ∃ a', Gui.perform_search app_ready = Gui.Done a'
    ∧ Gui.consistent a' ∧ Gui.documents a' = Gui.documents app_ready
    ∧ ∀ term, posting (Gui.heap a') term = posting (Gui.heap app_ready) term.
Proof. apply (perform_search_no_key_error app_ready). exact app_ready_consistent. Defined.



(** A query that is not empty but holds no term, stopwords or
    punctuation only, is searched all the same: it is not the query the
    "enter a query" dialog refuses, and the results pane gets the
    no-match line, whatever the search type. *)
Theorem perform_search_no_terms a op :
  Gui.consistent a →
  index (Gui.heap a) ≠ ∅ → Gui.query_entry a ≠ EmptyString →
  preprocess (Gui.query_entry a) = [] →
  Gui.operator_of (Gui.search_type a) = Some op →
  ∃ a', Gui.perform_search a = Gui.Done a'
    ∧ Gui.results_text a' = ["No documents found matching the query."]
    ∧ Gui.dialogs a' = Gui.dialogs a.
Proof.
  intros Hcons Hindex Hquery Hterms Hop.
  destruct (perform_search_consistent a Hcons) as (a' & Hrun & _ & _ & _ & Hshow).
  destruct (Hshow Hindex Hquery op Hop) as [Hpane Hdialogs].
  exists a'. split_and!; [done | | done].
  rewrite Hpane, Hterms, value_no_terms. unfold Gui.rendering.
  by rewrite bool_decide_eq_true_2.
Qed.

Lemma perform_search_no_terms_witness :
  ∃ a', Gui.perform_search
          (Gui.select_type "NOT" (Gui.type_query "the, and of!" app_loaded))
        = Gui.Done a'
    ∧ Gui.results_text a' = ["No documents found matching the query."]
    ∧ Gui.dialogs a'
      = Gui.dialogs (Gui.select_type "NOT" (Gui.type_query "the, and of!" app_loaded)).
Proof.
  apply (perform_search_no_terms
           (Gui.select_type "NOT" (Gui.type_query "the, and of!" app_loaded)) NOT).
  - exact app_loaded_consistent.
  - apply (bool_decide_unpack _). vm_compute. exact I.
  - done.
  - vm_compute. reflexivity.
  - reflexivity.
Defined.



(** A load that comes back with no document, because the folder could
    not be read or holds no text file, empties the documents but keeps
    the index, the label and the index pane of the load before.  A search
    on that index whose answer is not empty then ends in a [KeyError]:
    the document to show is not among the documents any more. *)
Theorem load_nothing_keeps_index fs chosen a :
  chosen ≠ EmptyString →
  (Loader.load_documents_from_folder fs chosen).1 = ∅ →
  Gui.documents (Gui.load_documents fs chosen a) = ∅
  ∧ Gui.heap (Gui.load_documents fs chosen a) = Gui.heap a
  ∧ Gui.doc_count_label (Gui.load_documents fs chosen a) = Gui.doc_count_label a
  ∧ Gui.index_text (Gui.load_documents fs chosen a) = Gui.index_text a
  ∧ (∀ query search_type op,
       index_wf (Gui.heap a) → query ≠ EmptyString →
       Gui.operator_of search_type = Some op →
       value op (Gui.heap a) ∅ (preprocess query) ≠ ∅ →
       ∃ d a',
         Gui.perform_search
           (Gui.select_type search_type
              (Gui.type_query query (Gui.load_documents fs chosen a)))
         = Gui.KeyError d a'
         ∧ d ∈ value op (Gui.heap a) ∅ (preprocess query)).
Proof.
  intros Hchosen Hnone. rewrite load_documents_nothing by done.
  split_and!; [done | done | done | done |].
  intros query search_type op Hwf Hquery Hop Hvalue.
  rewrite perform_search_cases. simpl Gui.documents. simpl Gui.heap.
  simpl Gui.query_entry. simpl Gui.search_type. rewrite Hop.
  destruct (all_docs_made (∅ : gmap string string) (Gui.heap a) Hwf)
    as (Hg & Hall & Hc & Hi).
  set (made := Py.new_set (dom (∅ : gmap string string)) (Gui.heap a)) in *.
  cbv zeta.
  destruct (set_choose_L _ Hvalue) as [d0 Hd0].
  rewrite bool_decide_eq_false_2 by (by eapply value_index_nonempty).
  destruct (String.eqb query EmptyString) eqn:E; [by apply String.eqb_eq in E|].
  destruct (search_spec op query made.1 made.2 (grows_wf _ _ Hg) Hall) as [_ Hval].
  unfold result_of in Hval.
  set (found := search op query made.1 made.2) in *.
  assert (Hfound : contents found.2 found.1 = value op (Gui.heap a) ∅ (preprocess query)).
  { rewrite Hval, Hc, dom_empty_L. apply value_ext; [apply Hg | done]. }
  unfold Gui.display_search_results. simpl Gui.heap. simpl Gui.documents.
  rewrite Hfound, bool_decide_eq_false_2 by done.
  destruct (elements (value op (Gui.heap a) ∅ (preprocess query))) as [|d ids] eqn:El.
  { apply elements_empty_inv in El. by apply leibniz_equiv in El. }
  simpl. rewrite lookup_empty. eexists d, _. split; [done|].
  apply elem_of_elements. rewrite El. apply list_elem_of_here.
Qed.

Lemma load_nothing_keeps_index_witness :
  Gui.documents app_stale = ∅
  ∧ Gui.heap app_stale = Gui.heap app_loaded
  ∧ Gui.doc_count_label app_stale = Gui.doc_count_label app_loaded
  ∧ Gui.index_text app_stale = Gui.index_text app_loaded
  ∧ (∀ query search_type op,
       index_wf (Gui.heap app_loaded) → query ≠ EmptyString →
       Gui.operator_of search_type = Some op →
       value op (Gui.heap app_loaded) ∅ (preprocess query) ≠ ∅ →
       ∃ d a',
         Gui.perform_search
           (Gui.select_type search_type (Gui.type_query query app_stale))
         = Gui.KeyError d a'
         ∧ d ∈ value op (Gui.heap app_loaded) ∅ (preprocess query)).
Proof.
  apply (load_nothing_keeps_index fs_empty "empty" app_loaded).
  - done.
  - reflexivity.
Defined.

(** The same, run: after the folder of two documents an empty folder is
    loaded; the label still counts two documents, and the AND search for
    "sat" stops at the first document it is to show. *)
Example stale_index_key_error :
  Gui.doc_count_label app_stale = 2
  ∧ Gui.documents app_stale = ∅
  ∧ ∃ a', Gui.perform_search (Gui.select_type "AND" (Gui.type_query "sat" app_stale))
          = Gui.KeyError "d1.txt" a'
          ∧ Gui.results_text a' = ["Document: d1.txt" +:+ Gui.nl].
Proof.
  split; [vm_compute; reflexivity|]. split; [vm_compute; reflexivity|].
  eexists. split; vm_compute; reflexivity.
Qed.

(** Documents that hold stopwords only load with the success dialog and
    leave the index without a key; every search is then refused with the
    dialog that asks to load documents first, and shows nothing. *)
Theorem stopword_documents_refused fs chosen a query search_type :
  chosen ≠ EmptyString →
  (Loader.load_documents_from_folder fs chosen).1 ≠ ∅ →
  (∀ d text, (Loader.load_documents_from_folder fs chosen).1 !! d = Some text →
             preprocess text = []) →
  index (Gui.heap (Gui.load_documents fs chosen a)) = ∅
  ∧ last (Gui.dialogs (Gui.load_documents fs chosen a))
    = Some (Gui.showinfo "Success" "Documents loaded successfully!")
  ∧ ∃ a', Gui.perform_search
            (Gui.select_type search_type
               (Gui.type_query query (Gui.load_documents fs chosen a)))
          = Gui.Done a'
      ∧ Gui.dialogs a'
        = Gui.dialogs (Gui.load_documents fs chosen a)
          ++ [Gui.showinfo "Info" "Please load documents first."]
      ∧ Gui.results_text a' = Gui.results_text a.
Proof.
  intros Hchosen Hne Hstop. rewrite load_documents_loaded by done. cbv zeta.
  destruct (create_inverted_index_spec
              (Loader.load_documents_from_folder fs chosen).1 (Gui.heap a))
    as (_ & _ & Hd).
  assert (Hempty : index (store_after
            (create_inverted_index (Loader.load_documents_from_folder fs chosen).1)
            (Gui.heap a)) = ∅).
  { apply dom_empty_iff_L, set_eq. intros term. rewrite Hd. split.
    - intros (d & text & Hdoc & Htok). rewrite (Hstop d text Hdoc) in Htok.
      by apply elem_of_nil in Htok.
    - by intros ?%not_elem_of_empty. }
  split_and!; [done | apply last_snoc |].
  rewrite perform_search_cases. simpl Gui.heap. cbv zeta.
  rewrite bool_decide_eq_true_2 by done.
  eexists. split_and!; done.
Qed.

Lemma stopword_documents_refused_witness :
  index (Gui.heap (Gui.load_documents fs_stopwords "docs" Gui.init)) = ∅
  ∧ last (Gui.dialogs (Gui.load_documents fs_stopwords "docs" Gui.init))
    = Some (Gui.showinfo "Success" "Documents loaded successfully!")
  ∧ ∃ a', Gui.perform_search
            (Gui.select_type "OR"
               (Gui.type_query "the" (Gui.load_documents fs_stopwords "docs" Gui.init)))
          = Gui.Done a'
      ∧ Gui.dialogs a'
        = Gui.dialogs (Gui.load_documents fs_stopwords "docs" Gui.init)
          ++ [Gui.showinfo "Info" "Please load documents first."]
      ∧ Gui.results_text a' = Gui.results_text Gui.init.
Proof.
  apply (stopword_documents_refused fs_stopwords "docs" Gui.init "the" "OR").
  - done.
  - apply (bool_decide_unpack _). vm_compute. exact I.
  - intros d text H.
    assert ((Loader.load_documents_from_folder fs_stopwords "docs").1
            = {["a.txt" := "The and of."]}) as Hdocs by (vm_compute; reflexivity).
    rewrite Hdocs in H. apply lookup_singleton_Some in H as [_ <-].
    vm_compute. reflexivity.
Defined.

(** [clear_all] puts the documents and the index back together whatever
    they were, also after a load that had left the index behind; it
    keeps the search type and the set objects, doing it twice is doing it
    once, and a search after it is refused with the dialog that asks to
    load documents first. *)
Theorem clear_all_resets a query search_type :
  Gui.consistent (Gui.clear_all a)
  ∧ Gui.clear_all (Gui.clear_all a) = Gui.clear_all a
  ∧ Gui.documents (Gui.clear_all a) = ∅ ∧ index (Gui.heap (Gui.clear_all a)) = ∅
  ∧ ∃ a', Gui.perform_search
            (Gui.select_type search_type (Gui.type_query query (Gui.clear_all a)))
          = Gui.Done a'
      ∧ Gui.dialogs a'
        = Gui.dialogs a ++ [Gui.showinfo "Info" "Please load documents first."]
      ∧ Gui.results_text a' = [].
Proof.
  split_and!; [| done | done | done |].
  - split; simpl.
    + intros term r; simpl. by rewrite lookup_empty.
    + intros term d. by rewrite posting_empty_index; intros ?%not_elem_of_empty.
  - rewrite perform_search_cases. simpl Gui.heap. cbv zeta.
    rewrite bool_decide_eq_true_2 by done.
    eexists. split_and!; done.
Qed.

(** [center_window] centres the window to the pixel: the margin right of
    it is the margin left of it or one pixel more, and likewise below
    and above, also on a screen smaller than the window, where the
    offsets are negative. *)
Theorem center_window_centred screen_width screen_height :
  let x := (center_window screen_width screen_height).1 in
  let y := (center_window screen_width screen_height).2 in
  (0 ≤ (screen_width - (x + 870)) - x ≤ 1)%Z
  ∧ (0 ≤ (screen_height - (y + 755)) - y ≤ 1)%Z
  ∧ ((0 ≤ x)%Z ↔ (870 ≤ screen_width)%Z)
  ∧ ((0 ≤ y)%Z ↔ (755 ≤ screen_height)%Z).
Proof.
  unfold center_window. simpl.
  pose proof (Z.div_mod (screen_width - 870) 2 ltac:(lia)).
  pose proof (Z.mod_pos_bound (screen_width - 870) 2 ltac:(lia)).
  pose proof (Z.div_mod (screen_height - 755) 2 ltac:(lia)).
  pose proof (Z.mod_pos_bound (screen_height - 755) 2 ltac:(lia)).
  lia.
Qed.
